(** * Engineering gotchas: the throttled dispatch lane (ep4) and the
      fixed-window counter (ep2)

    Shallow embedding of [ep4/main.go] and [ep2/main.go].

    Conventions.
    - A [time.Duration] / [time.Time] is an [int64] count of nanoseconds,
      modelled as [Z].
    - A goroutine is modelled by the sequence of its observable operations
      (channel operations, sleeps, downstream calls); the interleaving of
      goroutines is a labelled transition system whose labels resolve the
      scheduler's and [select]'s choices.
    - Logging ([log.Printf], [log.Println]) has no effect on the state and
      is left out. *)

From Stdlib Require Import ZArith List Lia.
From stdpp Require Import gmap strings list fin_maps pretty.
From Equations Require Import Equations.

Local Open Scope Z_scope.

(* ===================================================================== *)
(** * Episode 4: throttled dispatch with retry and backoff               *)
(* ===================================================================== *)

Module Ep4.

(** ** Durations ([time] package) *)

Definition Duration := Z.

Definition Nanosecond : Duration := 1.
Definition Microsecond : Duration := 1000 * Nanosecond.
Definition Millisecond : Duration := 1000 * Microsecond.
Definition Second : Duration := 1000 * Millisecond.
Definition Minute : Duration := 60 * Second.

(** [const MaxRequestsPerMinute = 1000] *)
Definition MaxRequestsPerMinute : Z := 1000.

(** The period of the ticker built in [processQueue]:
    [time.Minute / time.Duration(MaxRequestsPerMinute)]. *)
Definition tickerInterval : Duration := Minute / MaxRequestsPerMinute.

(** ** The arithmetic of the backoff update

    [backoff = time.Duration(float64(backoff) * math.Pow(2, float64(attempt)))]

    goes through [float64].  The values involved are integers, so a float
    is represented by the integer it denotes. *)

(** [float64(x)] for an integer [x]: the nearest value with a 53-bit
    significand, ties to even. *)
Definition float64_of_int (x : Z) : Z :=
  let a := Z.abs x in
  if a <? 2 ^ 53 then x
  else
    let e := Z.log2 a - 52 in
    let q := a / 2 ^ e in
    let r := a mod 2 ^ e in
    let half := 2 ^ (e - 1) in
    let q' := if r <? half then q
              else if half <? r then q + 1
              else if Z.even q then q else q + 1 in
    Z.sgn x * (q' * 2 ^ e).

(** [time.Duration(f)] for an integral float [f]: the value itself when it
    fits [int64]; outside that range the Go specification leaves the result
    to the implementation, and amd64 yields the minimal [int64]. *)
Definition Duration_of_float64 (f : Z) : Duration :=
  if (- 2 ^ 63 <=? f) && (f <? 2 ^ 63) then f else - 2 ^ 63.

(** The right-hand side of the assignment to [backoff].  Scaling a float by
    a power of two is exact (no overflow of the exponent below 2^1024). *)
Definition next_backoff (backoff : Duration) (attempt : nat) : Duration :=
  Duration_of_float64 (float64_of_int backoff * 2 ^ Z.of_nat attempt).

(** ** Requests, responses, errors *)

(** Go [error] values as [sendRequest] and the HTTP handler tell them
    apart: the package-level sentinel [ErrRateLimited], compared by
    identity, and any other error, of which only the message is used. *)
Inductive error :=
| ErrRateLimited
| Errorf (msg : string).

#[global] Instance error_eq_dec : EqDecision error.
Proof. solve_decision. Defined.

(** [err.Error()] *)
Definition Error (e : error) : string :=
  match e with
  | ErrRateLimited => "rate limited by third-party API"
  | Errorf msg => msg
  end.

(** [type APIResponse struct { Data string; Err error }]; the field [Data]
    is named [RespData] here, [Data] being taken by [UserRequest]. *)
Record APIResponse := { RespData : string; Err : option error }.

#[global] Instance APIResponse_eq_dec : EqDecision APIResponse.
Proof. solve_decision. Defined.

(** [type UserRequest struct { UserID, Data string; Response chan *APIResponse }];
    a channel is named by its index in the heap of channels. *)
Record UserRequest := { UserID : string; Data : string; Response : nat }.

#[global] Instance UserRequest_eq_dec : EqDecision UserRequest.
Proof. solve_decision. Defined.

(** ** Buffered channels of [*APIResponse] *)

Record Chan := { cap : nat; buf : list (option APIResponse) }.

(** [make(chan *APIResponse, n)] *)
Definition make_chan (n : nat) : Chan := {| cap := n; buf := [] |}.

(** ** What the worker goroutine does, in order *)

Inductive Event :=
| EvEnqueue (req : UserRequest)          (* rl.requestChan <- req          *)
| EvDequeue (req : UserRequest)          (* req := <-rl.requestChan        *)
| EvTick                                 (* <-ticker.C                     *)
| EvCall (req : UserRequest)             (* callThirdPartyAPI(req)         *)
| EvSleep (d : Duration)                 (* time.Sleep(d)                  *)
| EvSend (c : nat) (resp : option APIResponse). (* c <- resp               *)

#[global] Instance Event_eq_dec : EqDecision Event.
Proof. solve_decision. Defined.

(** The part of the program state the worker's operations act on. *)
Record World := {
  calls : nat;            (* downstream invocations made so far *)
  chans : list Chan;      (* the heap of [Response] channels    *)
  trace : list Event      (* operations so far, oldest first    *)
}.

Definition emit (e : Event) (w : World) : World :=
  {| calls := calls w; chans := chans w; trace := trace w ++ [e] |}.

(** A goroutine either gets past an operation or blocks in it forever. *)
Inductive run_result :=
| Returned (w : World)
| Blocked (w : World).

(** [c <- v]: proceeds when the buffer has room; a send on a full buffer
    (or on a nil channel) blocks.  When a receiver is already waiting, Go
    hands the value over directly; here that is the send filling the
    buffer, then the receive emptying it. *)
Definition chan_send (c : nat) (v : option APIResponse) (w : World) : run_result :=
  match chans w !! c with
  | Some ch =>
      if decide (length (buf ch) < cap ch)%nat
      then Returned (emit (EvSend c v)
             {| calls := calls w;
                chans := <[c := {| cap := cap ch; buf := buf ch ++ [v] |}]> (chans w);
                trace := trace w |})
      else Blocked w
  | None => Blocked w
  end.

(** [time.Sleep(d)] *)
Definition time_Sleep (d : Duration) (w : World) : World := emit (EvSleep d) w.

(** [<-ticker.C] *)
Definition ticker_wait (w : World) : World := emit EvTick w.

(** ** The downstream capability *)

(** Result of [callThirdPartyAPI]: a response pointer (possibly nil) and an
    error (possibly nil). *)
Definition api_result : Type := option APIResponse * option error.

(** [fmt.Sprintf("Processed data for user %s", req.UserID)] *)
Definition processed_msg (req : UserRequest) : string :=
  "Processed data for user " +:+ UserID req.

(** [callThirdPartyAPI] as the repository simulates it: [rnd] is the value
    [rand.Float32()] returns at this call, [lt_03 rnd] the comparison
    [rnd < 0.3]. *)
Definition callThirdPartyAPI_sim {F : Type} (lt_03 : F -> bool) (rnd : F)
    (req : UserRequest) : api_result :=
  if lt_03 rnd then (None, Some ErrRateLimited)
  else (Some {| RespData := processed_msg req; Err := None |}, None).

Section Worker.

(** The downstream call is the boundary of the lane: [sendRequest] handles
    a success, [ErrRateLimited] and any other error.  The capability is a
    parameter; its first argument counts the invocations made before this
    one, which stands for everything the outcome of a call may depend on
    (the simulation's random source, the real dependency's state). *)
Variable callThirdPartyAPI : nat -> UserRequest -> api_result.

Definition call_api (req : UserRequest) (w : World) : api_result * World :=
  (callThirdPartyAPI (calls w) req,
   emit (EvCall req) {| calls := S (calls w); chans := chans w; trace := trace w |}).

(** Locals of [sendRequest]. *)
Definition maxRetries : nat := 5.
Definition initial_backoff : Duration := Millisecond * 500.

(** [fmt.Errorf("request failed after %d retries", maxRetries)] *)
Definition exhausted_error : error :=
  Errorf ("request failed after " +:+ pretty maxRetries +:+ " retries").

(** The loop of [sendRequest],
    [for attempt := 1; attempt <= maxRetries; attempt++ { ... }],
    entered with the current [attempt] and [backoff], followed by the
    statement after the loop. *)
Equations? sendRequest_loop (req : UserRequest) (attempt : nat)
    (backoff : Duration) (w : World) : run_result
    by wf (maxRetries + 1 - attempt)%nat lt :=
  sendRequest_loop req attempt backoff w with decide (attempt <= maxRetries)%nat => {
    | right _ :=
        (* all retries failed *)
        chan_send (Response req)
          (Some {| RespData := ""; Err := Some exhausted_error |}) w
    | left _ with call_api req w => {
        | ((resp, None), w1) :=
            (* err == nil *)
            chan_send (Response req) resp w1
        | ((resp, Some err), w1) with decide (err = ErrRateLimited) => {
            | left _ :=
                sendRequest_loop req (S attempt) (next_backoff backoff attempt)
                  (time_Sleep backoff w1)
            | right _ :=
                chan_send (Response req)
                  (Some {| RespData := ""; Err := Some err |}) w1 } } }.
Proof. unfold maxRetries in *. lia. Qed.

Definition sendRequest (req : UserRequest) (w : World) : run_result :=
  sendRequest_loop req 1 initial_backoff w.

(** One turn of the loop of [processQueue] when its [select] takes
    [case req := <-rl.requestChan]: wait for the ticker, then [sendRequest]. *)
Definition dispatch (req : UserRequest) (w : World) : run_result :=
  sendRequest req (ticker_wait (emit (EvDequeue req) w)).

(** ** The HTTP handler of [main] *)

Definition StatusOK : Z := 200.
Definition StatusBadRequest : Z := 400.
Definition StatusTooManyRequests : Z := 429.
Definition StatusInternalServerError : Z := 500.
Definition StatusGatewayTimeout : Z := 504.

Record HTTPReply := { status : Z; body : string }.

#[global] Instance HTTPReply_eq_dec : EqDecision HTTPReply.
Proof. solve_decision. Defined.

Definition newline : string := String (Ascii.ascii_of_nat 10) EmptyString.

(** [http.Error(w, msg, code)] *)
Definition http_Error (msg : string) (code : Z) : HTTPReply :=
  {| status := code; body := msg +:+ newline |}.

(** A handler goroutine past the header check. *)
Inductive Handler :=
| HWaiting (req : UserRequest)   (* in the [select], after [SubmitRequest] *)
| HReplied (r : HTTPReply)       (* wrote its reply and returned           *)
| HPanicked.                     (* dereferenced a nil response            *)

(** [case resp := <-req.Response: ...] *)
Definition on_response (resp : option APIResponse) : Handler :=
  match resp with
  | None => HPanicked
  | Some r =>
      match Err r with
      | Some e =>
          if decide (e = ErrRateLimited)
          then HReplied (http_Error "Service is busy, please try again later."
                           StatusTooManyRequests)
          else HReplied (http_Error (Error e) StatusInternalServerError)
      | None =>
          HReplied {| status := StatusOK; body := "Success: " +:+ RespData r |}
      end
  end.

(** [case <-time.After(5 * time.Second): ...] *)
Definition on_timeout : Handler :=
  HReplied (http_Error "Request timed out" StatusGatewayTimeout).


(** ** The running system *)

(** The [processQueue] goroutine. *)
Inductive WorkerStatus :=
| Running      (* at the [select], or about to be *)
| Halted       (* returned on [<-rl.shutdownChan] *)
| Stuck.       (* blocked in a send on a [Response] channel *)

(** Capacity of [requestChan]: [make(chan *UserRequest, 10000)]. *)
Definition requestChan_cap : Z := 10000.

Record Sys := {
  requestChan : list UserRequest;   (* buffer of [rl.requestChan], head first *)
  shutdownChan : bool;              (* [true] once closed                     *)
  worker : WorkerStatus;
  world : World;
  handlers : list Handler           (* handler goroutines, by arrival         *)
}.

(** [NewRateLimiter()]: both channels made, the worker started. *)
Definition NewRateLimiter : Sys :=
  {| requestChan := []; shutdownChan := false; worker := Running;
     world := {| calls := 0; chans := []; trace := [] |};
     handlers := [] |}.

(** What can happen next; the label fixes the scheduler's choice and the
    branch a [select] with several ready cases takes. *)
Inductive Action :=
| AHandle (userID : string)  (* a request arrives with this X-User-ID; the
                                handler runs up to its [select]            *)
| AShutdown                  (* [Shutdown]: [close(rl.shutdownChan)]       *)
| AWorkerRecv                (* worker: [case req := <-rl.requestChan]     *)
| AWorkerHalt                (* worker: [case <-rl.shutdownChan: return]   *)
| ARecv (h : nat)            (* handler [h]: [case resp := <-req.Response] *)
| ATimeout (h : nat).        (* handler [h]: [case <-time.After(...)]      *)

(** The functions below return [None] when the goroutine cannot get past
    the operation in [s] (it is blocked), or is not at that point of its
    code. *)

(** [SubmitRequest(req)]: [rl.requestChan <- req], which blocks while the
    buffer is full. *)
Definition SubmitRequest (req : UserRequest) (s : Sys) : option Sys :=
  if decide (Z.of_nat (length (requestChan s)) < requestChan_cap)
  then Some {| requestChan := requestChan s ++ [req];
               shutdownChan := shutdownChan s;
               worker := worker s;
               world := emit (EvEnqueue req) (world s);
               handlers := handlers s |}
  else None.

(** [Shutdown()]: [close(rl.shutdownChan)]; closing a closed channel
    panics.  The caller then waits in [rl.wg.Wait()] for the worker to
    return, which changes nothing in the state. *)
Definition Shutdown (s : Sys) : option Sys :=
  if shutdownChan s then None
  else Some {| requestChan := requestChan s; shutdownChan := true;
               worker := worker s; world := world s;
               handlers := handlers s |}.

(** The two cases of the [select] in [processQueue]. *)
Inductive select_case :=
| CaseShutdown      (* [case <-rl.shutdownChan: return]                    *)
| CaseRequest.      (* [case req := <-rl.requestChan: <-ticker.C; rl.sendRequest(req)] *)

(** One turn of the loop of [processQueue], its [select] taking [c]; a
    case can be taken only when its channel is ready. *)
Definition processQueue (c : select_case) (s : Sys) : option Sys :=
  match worker s, c with
  | Running, CaseShutdown =>
      if shutdownChan s
      then Some {| requestChan := requestChan s; shutdownChan := true;
                   worker := Halted; world := world s;
                   handlers := handlers s |}
      else None
  | Running, CaseRequest =>
      match requestChan s with
      | req :: q =>
          match dispatch req (world s) with
          | Returned w' =>
              Some {| requestChan := q; shutdownChan := shutdownChan s;
                      worker := Running; world := w'; handlers := handlers s |}
          | Blocked w' =>
              Some {| requestChan := q; shutdownChan := shutdownChan s;
                      worker := Stuck; world := w'; handlers := handlers s |}
          end
      | [] => None
      end
  | _, _ => None
  end.

(** The handler of [/api/request], from the arrival of a request with the
    header [X-User-ID: userID] to its [select].  A handler that blocks in
    [SubmitRequest] is not part of the state: the channel it has made by
    then is not recorded, so [chans] holds the channels of the handlers
    that got past [SubmitRequest]. *)
Definition handle (userID : string) (s : Sys) : option Sys :=
  if decide (userID = "")
  then Some {| requestChan := requestChan s; shutdownChan := shutdownChan s;
               worker := worker s; world := world s;
               handlers := handlers s ++
                 [HReplied (http_Error "User ID is required" StatusBadRequest)] |}
  else
    (* req := &UserRequest{..., Response: make(chan *APIResponse, 1)} *)
    let req := {| UserID := userID; Data := "Some data";
                  Response := length (chans (world s)) |} in
    match SubmitRequest req
            {| requestChan := requestChan s; shutdownChan := shutdownChan s;
               worker := worker s;
               world := {| calls := calls (world s);
                           chans := chans (world s) ++ [make_chan 1];
                           trace := trace (world s) |};
               handlers := handlers s |}
    with
    | Some s1 =>
        Some {| requestChan := requestChan s1; shutdownChan := shutdownChan s1;
                worker := worker s1; world := world s1;
                handlers := handlers s1 ++ [HWaiting req] |}
    | None => None
    end.

(** Handler [h] at its [select], taking [case resp := <-req.Response].
    The state carries no clock: this case can be taken whenever a value is
    buffered, also in schedules in which the deadline of the [select] has
    long passed, so the schedules here include those of the program. *)
Definition handler_receive (h : nat) (s : Sys) : option Sys :=
  match handlers s !! h with
  | Some (HWaiting req) =>
      match chans (world s) !! Response req with
      | Some {| cap := n; buf := v :: rest |} =>
          Some {| requestChan := requestChan s;
                  shutdownChan := shutdownChan s;
                  worker := worker s;
                  world := {| calls := calls (world s);
                              chans := <[Response req := {| cap := n; buf := rest |}]>
                                         (chans (world s));
                              trace := trace (world s) |};
                  handlers := <[h := on_response v]> (handlers s) |}
      | _ => None
      end
  | _ => None
  end.

(** Handler [h] at its [select], taking [case <-time.After(5 * time.Second)]. *)
Definition handler_timeout (h : nat) (s : Sys) : option Sys :=
  match handlers s !! h with
  | Some (HWaiting _) =>
      Some {| requestChan := requestChan s; shutdownChan := shutdownChan s;
              worker := worker s; world := world s;
              handlers := <[h := on_timeout]> (handlers s) |}
  | _ => None
  end.

Definition step (a : Action) (s : Sys) : option Sys :=
  match a with
  | AHandle userID => handle userID s
  | AShutdown => Shutdown s
  | AWorkerRecv => processQueue CaseRequest s
  | AWorkerHalt => processQueue CaseShutdown s
  | ARecv h => handler_receive h s
  | ATimeout h => handler_timeout h s
  end.

(** A schedule, run from [s]. *)
Fixpoint run (acts : list Action) (s : Sys) : option Sys :=
  match acts with
  | [] => Some s
  | a :: acts' =>
      match step a s with
      | Some s' => run acts' s'
      | None => None
      end
  end.

End Worker.

(** ** Reading a trace *)

Definition enqueued (t : list Event) : list UserRequest :=
  omap (fun e => match e with EvEnqueue r => Some r | _ => None end) t.

Definition dequeued (t : list Event) : list UserRequest :=
  omap (fun e => match e with EvDequeue r => Some r | _ => None end) t.

(** Downstream invocations, by request. *)
Definition invocations (t : list Event) : list UserRequest :=
  omap (fun e => match e with EvCall r => Some r | _ => None end) t.

Definition ticks (t : list Event) : nat :=
  length (filter (fun e => e = EvTick) t).

(** The durations slept, in order. *)
Definition sleeps (t : list Event) : list Duration :=
  omap (fun e => match e with EvSleep d => Some d | _ => None end) t.

(** What was written to channel [c], in order. *)
Definition sent_to (c : nat) (t : list Event) : list (option APIResponse) :=
  omap (fun e => match e with
                 | EvSend c' v => if decide (c' = c) then Some v else None
                 | _ => None
                 end) t.

(** Every downstream invocation uses up a release signal of the ticker
    observed since the invocation before it ([credit]: one is in hand). *)
Fixpoint gated (credit : bool) (t : list Event) : bool :=
  match t with
  | [] => true
  | EvTick :: t' => gated true t'
  | EvCall _ :: t' => credit && gated false t'
  | _ :: t' => gated credit t'
  end.

(** [k] rate-limited attempts in a row, the first one numbered [attempt]
    and made with the delay [backoff] in hand: each is a call followed by
    the sleep. *)
Fixpoint retry_events (req : UserRequest) (backoff : Duration)
    (attempt k : nat) : list Event :=
  match k with
  | O => []
  | S k' =>
      EvCall req :: EvSleep backoff ::
      retry_events req (next_backoff backoff attempt) (S attempt) k'
  end.

(** The events of one turn of [processQueue] with [k] rate-limited
    attempts, up to the send that ends it: the dequeue, one tick, the
    rate-limited attempts, and a last call unless the budget is spent. *)
Definition turn_events (req : UserRequest) (k : nat) : list Event :=
  [EvDequeue req; EvTick] ++ retry_events req initial_backoff 1 k
    ++ (if decide (k = maxRetries) then [] else [EvCall req]).

(** The delay slept after attempt number [attempt] fails rate-limited. *)
Fixpoint backoff_at (attempt : nat) : Duration :=
  match attempt with
  | O => initial_backoff
  | S O => initial_backoff
  | S (S a as p) => next_backoff (backoff_at p) p
  end.

Definition world_of (r : run_result) : World :=
  match r with Returned w => w | Blocked w => w end.

(** The backoff policy in the words of the specification: the delay grows
    geometrically with the attempt number from the base delay,
    base * 2^attempt, base = 500ms. *)
Definition spec_NextDelay (attempt : nat) : Duration :=
  initial_backoff * 2 ^ Z.of_nat attempt.

(** Every downstream invocation in [t] comes straight after a sleep of at
    least the base delay ([prev]: the sleep just before [t], if any). *)
Fixpoint backed_off (prev : option Duration) (t : list Event) : bool :=
  match t with
  | [] => true
  | EvSleep d :: t' => backed_off (Some d) t'
  | EvCall _ :: t' =>
      match prev with
      | Some d => (initial_backoff <=? d) && backed_off None t'
      | None => false
      end
  | _ :: t' => backed_off None t'
  end.

(** ** Invariant of the running system *)

Record lane_inv (s : Sys) : Prop := {
  (* the worker never blocks in a send *)
  inv_not_stuck : worker s <> Stuck;
  (* it halts on the shutdown signal only *)
  inv_halted : worker s = Halted -> shutdownChan s = true;
  (* what was enqueued is what was dequeued, then what is still queued *)
  inv_fifo :
    enqueued (trace (world s)) = dequeued (trace (world s)) ++ requestChan s;
  (* every request has a channel of its own, made before it was enqueued *)
  inv_nodup : NoDup (Response <$> enqueued (trace (world s)));
  inv_alloc : forall r, r ∈ enqueued (trace (world s)) ->
    (Response r < length (chans (world s)))%nat;
  (* the channel of a queued request is as [make] left it *)
  inv_fresh : forall r, r ∈ requestChan s ->
    chans (world s) !! Response r = Some (make_chan 1);
  (* one send for each request taken from the queue, none otherwise *)
  inv_sent : forall r, r ∈ dequeued (trace (world s)) ->
    exists v, sent_to (Response r) (trace (world s)) = [v];
  inv_unsent : forall c,
    (forall r, r ∈ dequeued (trace (world s)) -> Response r <> c) ->
    sent_to c (trace (world s)) = [];
  (* the invocations are those of the dequeued requests, in that order,
     between one and [maxRetries] in a row for each *)
  inv_calls : exists counts : list nat,
    length counts = length (dequeued (trace (world s))) /\
    Forall (fun n => 1 <= n <= maxRetries)%nat counts /\
    invocations (trace (world s)) =
      concat (zip_with replicate counts (dequeued (trace (world s))))
}.

(** ** Sample downstream behaviours and inputs *)

Definition ok_response (req : UserRequest) : api_result :=
  (Some {| RespData := processed_msg req; Err := None |}, None).

(** Successful at every invocation. *)
Definition always_ok : nat -> UserRequest -> api_result :=
  fun _ req => ok_response req.

(** Rate-limited at every invocation. *)
Definition always_rate_limited : nat -> UserRequest -> api_result :=
  fun _ _ => (None, Some ErrRateLimited).

(** Rate-limited at the first [k] invocations, successful afterwards. *)
Definition rate_limited_first (k : nat) : nat -> UserRequest -> api_result :=
  fun n req => if (n <? k)%nat then (None, Some ErrRateLimited) else ok_response req.

(** Failing with an error other than [ErrRateLimited]. *)
Definition always_broken : nat -> UserRequest -> api_result :=
  fun _ _ => (None, Some (Errorf "connection refused")).

Definition sample_request : UserRequest :=
  {| UserID := "alice"; Data := "Some data"; Response := 0 |}.

(** No call made yet, the request's channel fresh. *)
Definition sample_world : World :=
  {| calls := 0; chans := [make_chan 1]; trace := [] |}.

(** The state a schedule leads to from the start. *)
Definition state_after (api : nat -> UserRequest -> api_result)
    (acts : list Action) : Sys :=
  default NewRateLimiter (run api acts NewRateLimiter).

(** Two requests served (the first after one rate-limited attempt), a
    third one queued. *)
Definition fifo_schedule : list Action :=
  [AHandle "alice"; AHandle "bob"; AWorkerRecv; AHandle "carol"; AWorkerRecv].
Definition fifo_sample : Sys :=
  Eval vm_compute in state_after (rate_limited_first 1) fifo_schedule.

(** The first caller gives up before the worker reaches its request. *)
Definition abandon_schedule : list Action :=
  [AHandle "alice"; AHandle "bob"; ATimeout 0; AWorkerRecv].
Definition abandon_sample : Sys :=
  Eval vm_compute in state_after always_ok abandon_schedule.

(** [Shutdown] with a request in the queue; the worker takes the signal. *)
Definition shutdown_schedule : list Action :=
  [AHandle "alice"; AShutdown; AWorkerHalt].
Definition shutdown_sample : Sys :=
  Eval vm_compute in state_after always_ok shutdown_schedule.

(** ** The simulated downstream, and what the lane keeps besides *)

(** [callThirdPartyAPI] of the repository as a downstream: [rnd n] is what
    [rand.Float32()] yields at the invocation that [n] others preceded. *)
Definition simulated {F : Type} (lt_03 : F -> bool) (rnd : nat -> F)
    : nat -> UserRequest -> api_result :=
  fun n req => callThirdPartyAPI_sim lt_03 (rnd n) req.

(** [v] is something [sendRequest] writes for [req] over the downstream
    [api]: the error after the last retry, a response the downstream
    returned without error, or an error of the downstream other than
    [ErrRateLimited]. *)
Definition written (api : nat -> UserRequest -> api_result)
    (req : UserRequest) (v : option APIResponse) : Prop :=
  v = Some {| RespData := ""; Err := Some exhausted_error |} \/
  (exists n, api n req = (v, None)) \/
  (exists n resp e, api n req = (resp, Some e) /\ e <> ErrRateLimited /\
                    v = Some {| RespData := ""; Err := Some e |}).

Record lane_inv2 (api : nat -> UserRequest -> api_result) (s : Sys) : Prop := {
  (* one recorded channel per request submitted (the channel of a handler
     blocked in [SubmitRequest] is not recorded), in the order of arrival *)
  inv2_chans :
    length (chans (world s)) = length (enqueued (trace (world s)));
  (* a submitted request carries the channel of its arrival number, names
     a user and has the fixed payload *)
  inv2_req : forall i r, enqueued (trace (world s)) !! i = Some r ->
    Response r = i /\ UserID r <> "" /\ Data r = "Some data";
  (* the buffer of [requestChan] is never over its capacity *)
  inv2_cap : Z.of_nat (length (requestChan s)) <= requestChan_cap;
  (* one tick per request taken from the queue *)
  inv2_ticks : ticks (trace (world s)) = length (dequeued (trace (world s)));
  (* a waiting handler waits for the request it submitted *)
  inv2_waiting : forall h req, handlers s !! h = Some (HWaiting req) ->
    enqueued (trace (world s)) !! Response req = Some req;
  (* what sits in a channel was written for the request owning it *)
  inv2_buf : forall c ch v, chans (world s) !! c = Some ch -> v ∈ buf ch ->
    exists r, enqueued (trace (world s)) !! c = Some r /\ written api r v
}.

(** Two callers served by a downstream that never rate-limits, the second
    handler about to read its response, and having read it. *)
Definition served_schedule : list Action :=
  [AHandle "alice"; AHandle "bob"; AWorkerRecv; AWorkerRecv].
Definition served_sample : Sys :=
  Eval vm_compute in
    state_after (simulated (fun b : bool => b) (fun _ => false)) served_schedule.
Definition served_and_read_sample : Sys :=
  Eval vm_compute in
    state_after (simulated (fun b : bool => b) (fun _ => false))
      (served_schedule ++ [ARecv 1]).

(** The state in [o], or [s] when there is none. *)
Definition state_of_option (o : option Sys) (s : Sys) : Sys := default s o.

(** The worker has halted and the queue is full. *)
Definition halted_full_sample : Sys :=
  {| requestChan :=
       (fun i => {| UserID := "alice"; Data := "Some data"; Response := i |})
         <$> seq 0 (Z.to_nat requestChan_cap);
     shutdownChan := true; worker := Halted;
     world := {| calls := 0; chans := []; trace := [] |};
     handlers := [] |}.

End Ep4.

(* ===================================================================== *)
(** * Episode 2: the fixed-window counter                                *)
(* ===================================================================== *)

Module Ep2.

(** A [time.Time] as nanoseconds since the epoch. *)
Definition Time := Z.
Definition Duration := Z.

Definition maxDuration : Duration := 2 ^ 63 - 1.
Definition minDuration : Duration := - 2 ^ 63.

(** [const RequestLimit = 5], [TimeWindow = time.Minute] *)
Definition RequestLimit : Z := 5.
Definition TimeWindow : Duration := 60 * 1000 * 1000 * 1000.

(** The one error of this package, made by [fmt.Errorf]. *)
Inductive error := Errorf (msg : string).

(** [t.Sub(u)]: the difference, saturated to the range of [Duration]. *)
Definition Sub (t u : Time) : Duration :=
  Z.max minDuration (Z.min maxDuration (t - u)).

(** [x++] on an [int] (64 bits, wrapping). *)
Definition int_incr (x : Z) : Z :=
  (x + 1 + 2 ^ 63) mod 2 ^ 64 - 2 ^ 63.

(** [type Visitor struct { lastSeen time.Time; requests int }] *)
Record Visitor := { lastSeen : Time; requests : Z }.

(** [type RateLimiter struct]; the mutex is held for the whole of every
    method, so each method is one atomic state change.  The map holds
    pointers to visitors that nothing else refers to, so updating a
    visitor in place is updating the map at its key. *)
Record RateLimiter := {
  visitors : gmap string Visitor;
  storageEnabled : bool
}.

Definition NewRateLimiter : RateLimiter :=
  {| visitors := ∅; storageEnabled := true |}.

(** [SimulateStorageFailure(enable)] *)
Definition SimulateStorageFailure (enable : bool) (rl : RateLimiter) : RateLimiter :=
  {| visitors := visitors rl; storageEnabled := enable |}.

(** [fmt.Errorf("storage unavailable")] *)
Definition storage_unavailable : error := Errorf "storage unavailable".

(** [Limit(userID)].  [t1] and [t2] are what the clock reads at the first
    and at the second reading ([time.Now], [time.Since]) the call makes.
    Returns [((limited, err), rl')]. *)
Definition Limit (userID : string) (t1 t2 : Time) (rl : RateLimiter)
    : (bool * option error) * RateLimiter :=
  if negb (storageEnabled rl) then
    ((false, Some storage_unavailable), rl)
  else
    match visitors rl !! userID with
    | None =>
        ((false, None),
         {| visitors := <[userID := {| lastSeen := t1; requests := 1 |}]> (visitors rl);
            storageEnabled := storageEnabled rl |})
    | Some visitor =>
        if decide (Sub t1 (lastSeen visitor) > TimeWindow) then
          ((false, None),
           {| visitors := <[userID := {| lastSeen := t2; requests := 1 |}]> (visitors rl);
              storageEnabled := storageEnabled rl |})
        else
          let n := int_incr (requests visitor) in
          ((bool_decide (n > RequestLimit), None),
           {| visitors := <[userID := {| lastSeen := t2; requests := n |}]> (visitors rl);
              storageEnabled := storageEnabled rl |})
    end.

(** ** The rest of the package *)

Definition Second : Duration := 1000 * 1000 * 1000.

(** One sweep of [cleanupVisitors] (the body of its loop between [Lock] and
    [Unlock]): every visitor is looked at once and deleted when
    [time.Since(visitor.lastSeen) > TimeWindow].  [now id] is what the clock
    reads when the visitor [id] is looked at. *)
Definition cleanupVisitors_sweep (now : string -> Time) (rl : RateLimiter)
    : RateLimiter :=
  {| visitors :=
       filter (fun kv : string * Visitor =>
                 ~ (Sub (now kv.1) (lastSeen kv.2) > TimeWindow))
              (visitors rl);
     storageEnabled := storageEnabled rl |}.

(** What a handler writes: the status, the [Retry-After] header if set, and
    the body. *)
Record HTTPResponse := {
  status : Z;
  header_RetryAfter : option string;
  body : string
}.

Definition StatusOK : Z := 200.
Definition StatusBadRequest : Z := 400.
Definition StatusTooManyRequests : Z := 429.

Definition newline : string := String (Ascii.ascii_of_nat 10) EmptyString.

(** [apiHandler]: [fmt.Fprintln(w, "Request successful")] *)
Definition apiHandler : HTTPResponse :=
  {| status := StatusOK; header_RetryAfter := None;
     body := "Request successful" +:+ newline |}.

(** [int(TimeWindow.Seconds())]: [TimeWindow] is a whole number of seconds,
    so the float is that number. *)
Definition retryAfter : Z := TimeWindow / Second.

(** [rateLimiterMiddleware(rl, next)] serving one request whose
    [X-User-ID] header reads [userID] ([""] when absent); [next] is what
    the wrapped handler writes for this request. *)
Definition rateLimiterMiddleware (next : HTTPResponse) (userID : string)
    (t1 t2 : Time) (rl : RateLimiter) : HTTPResponse * RateLimiter :=
  if decide (userID = "") then
    ({| status := StatusBadRequest; header_RetryAfter := None;
        body := "X-User-ID header is required" +:+ newline |}, rl)
  else
    match Limit userID t1 t2 rl with
    | ((_, Some _), rl') =>
        (* storage is unavailable: the request is let through *)
        (next, rl')
    | ((true, None), rl') =>
        ({| status := StatusTooManyRequests;
            header_RetryAfter := Some (pretty retryAfter);
            body := "Rate limit exceeded" +:+ newline |}, rl')
    | ((false, None), rl') => (next, rl')
    end.

(** The requests of one user, one after the other: the results of [Limit]
    in order, each call with its two clock readings. *)
Fixpoint Limit_each (userID : string) (ts : list (Time * Time))
    (rl : RateLimiter) : list (bool * option error) * RateLimiter :=
  match ts with
  | [] => ([], rl)
  | (t1, t2) :: ts' =>
      let r := Limit userID t1 t2 rl in
      let rs := Limit_each userID ts' (snd r) in
      (fst r :: fst rs, snd rs)
  end.

(** Each request comes within [TimeWindow] of the time recorded by the one
    before it ([last]: the time recorded before the first). *)
Fixpoint steady (last : Time) (ts : list (Time * Time)) : Prop :=
  match ts with
  | [] => True
  | (t1, t2) :: ts' => Sub t1 last <= TimeWindow /\ steady t2 ts'
  end.

(** The time recorded after the requests [ts]. *)
Definition last_seen (last : Time) (ts : list (Time * Time)) : Time :=
  foldl (fun _ t => snd t) last ts.

End Ep2.

(* ===================================================================== *)
(** * Properties of the dispatch lane (ep4)                              *)
(* ===================================================================== *)

Import Ep4.

Section Ep4_worker.

Variable api : nat -> UserRequest -> api_result.

(** ** The loop of [sendRequest], one turn at a time *)

Lemma loop_exit req attempt backoff w :
  (maxRetries < attempt)%nat ->
  sendRequest_loop api req attempt backoff w =
    chan_send (Response req)
      (Some {| RespData := ""; Err := Some exhausted_error |}) w.
Proof.
  intros Hgt. simp sendRequest_loop.
  destruct (decide (attempt <= maxRetries)%nat); [lia | reflexivity].
Qed.

Lemma loop_success req attempt backoff w resp :
  (attempt <= maxRetries)%nat ->
  api (calls w) req = (resp, None) ->
  sendRequest_loop api req attempt backoff w =
    chan_send (Response req) resp (snd (call_api api req w)).
Proof.
  intros Hle Hapi. simp sendRequest_loop.
  destruct (decide (attempt <= maxRetries)%nat); [| lia]. simpl.
  unfold call_api. rewrite Hapi. reflexivity.
Qed.

Lemma loop_rate_limited req attempt backoff w resp :
  (attempt <= maxRetries)%nat ->
  api (calls w) req = (resp, Some ErrRateLimited) ->
  sendRequest_loop api req attempt backoff w =
    sendRequest_loop api req (S attempt) (next_backoff backoff attempt)
      (time_Sleep backoff (snd (call_api api req w))).
Proof.
  intros Hle Hapi.
  rewrite (sendRequest_loop_equation_1 api req attempt backoff w).
  destruct (decide (attempt <= maxRetries)%nat); [| lia]. simpl.
  unfold call_api. rewrite Hapi. simpl. reflexivity.
Qed.

Lemma loop_other_error req attempt backoff w resp err :
  (attempt <= maxRetries)%nat ->
  err <> ErrRateLimited ->
  api (calls w) req = (resp, Some err) ->
  sendRequest_loop api req attempt backoff w =
    chan_send (Response req)
      (Some {| RespData := ""; Err := Some err |}) (snd (call_api api req w)).
Proof.
  intros Hle Hne Hapi. simp sendRequest_loop.
  destruct (decide (attempt <= maxRetries)%nat); [| lia]. simpl.
  unfold call_api. rewrite Hapi. simpl.
  destruct (decide (err = ErrRateLimited)); [contradiction | reflexivity].
Qed.

(** ** The shape of every run of the loop

    Entered at [attempt] with [n] turns to go, the loop makes [k <= n]
    rate-limited attempts, each followed by its sleep, then either a last
    call that is not rate-limited ([k < n]) or none ([k = n], the budget
    is spent), and ends in exactly one send on the request's channel.
    Nothing before that send touches a channel. *)
Lemma loop_shape req (n : nat) : forall (attempt : nat) backoff w,
  (attempt + n = S maxRetries)%nat ->
  exists (k : nat) (v : option APIResponse) (w_pre : World),
    (k <= n)%nat /\
    sendRequest_loop api req attempt backoff w
      = chan_send (Response req) v w_pre /\
    chans w_pre = chans w /\
    trace w_pre = trace w ++ retry_events req backoff attempt k
                    ++ (if decide (k = n) then [] else [EvCall req]) /\
    calls w_pre = (calls w + k + (if decide (k = n) then 0 else 1))%nat /\
    (forall i, (i < k)%nat ->
       snd (api (calls w + i)%nat req) = Some ErrRateLimited) /\
    (if decide (k = n)
     then v = Some {| RespData := ""; Err := Some exhausted_error |}
     else match api (calls w + k)%nat req with
          | (resp, None) => v = resp
          | (_, Some e) =>
              e <> ErrRateLimited /\
              v = Some {| RespData := ""; Err := Some e |}
          end).
Proof.
  induction n as [| n IH]; intros attempt backoff w Hn.
  - exists 0%nat, (Some {| RespData := ""; Err := Some exhausted_error |}), w.
    rewrite loop_exit by lia. simpl.
    rewrite app_nil_r, !Nat.add_0_r. repeat split; try done. lia.
  - assert (Hle : (attempt <= maxRetries)%nat) by lia.
    destruct (api (calls w) req) as [resp [e |]] eqn:Hapi.
    + destruct (decide (e = ErrRateLimited)) as [-> | Hne].
      * rewrite (loop_rate_limited _ _ _ _ _ Hle Hapi).
        destruct (IH (S attempt) (next_backoff backoff attempt)
                    (time_Sleep backoff (snd (call_api api req w))))
          as (k & v & w_pre & Hk & Hrun & Hch & Htr & Hcalls & Hrl & Hv);
          [lia |].
        exists (S k), v, w_pre. simpl in Htr, Hcalls, Hrl, Hv, Hch.
        split; [lia |]. split; [exact Hrun |]. split; [exact Hch |].
        split.
        { rewrite Htr. simpl. rewrite <- !app_assoc. simpl.
          destruct (decide (k = n)), (decide (S k = S n)); try lia; reflexivity. }
        split.
        { rewrite Hcalls.
          destruct (decide (k = n)), (decide (S k = S n)); lia. }
        split.
        { intros [| i] Hi.
          - rewrite Nat.add_0_r, Hapi. reflexivity.
          - replace (calls w + S i)%nat with (S (calls w) + i)%nat by lia.
            apply Hrl. lia. }
        destruct (decide (k = n)), (decide (S k = S n)); try lia; [exact Hv |].
        replace (calls w + S k)%nat with (S (calls w) + k)%nat by lia.
        exact Hv.
      * rewrite (loop_other_error _ _ _ _ _ _ Hle Hne Hapi).
        exists 0%nat, (Some {| RespData := ""; Err := Some e |}),
          (snd (call_api api req w)).
        simpl. rewrite !Nat.add_0_r, Hapi.
        repeat split; try done; lia.
    + rewrite (loop_success _ _ _ _ _ Hle Hapi).
      exists 0%nat, resp, (snd (call_api api req w)).
      simpl. rewrite !Nat.add_0_r, Hapi.
      repeat split; try done; lia.
Qed.

(** ** Channel sends *)

Lemma chan_send_ready c v w ch :
  chans w !! c = Some ch ->
  (length (buf ch) < cap ch)%nat ->
  chan_send c v w =
    Returned {| calls := calls w;
                chans := <[c := {| cap := cap ch; buf := buf ch ++ [v] |}]> (chans w);
                trace := trace w ++ [EvSend c v] |}.
Proof.
  intros Hc Hroom. unfold chan_send. rewrite Hc.
  destruct (decide (length (buf ch) < cap ch)%nat); [reflexivity | contradiction].
Qed.

Lemma chan_send_trace c v w :
  exists tail,
    trace (world_of (chan_send c v w)) = trace w ++ tail /\
    (tail = [] \/ tail = [EvSend c v]).
Proof.
  unfold chan_send.
  destruct (chans w !! c) as [ch |]; [destruct (decide _) |]; simpl.
  - exists [EvSend c v]. auto.
  - exists []. rewrite app_nil_r. auto.
  - exists []. rewrite app_nil_r. auto.
Qed.

(** ** Reading the events of the retries *)

Lemma invocations_app t1 t2 :
  invocations (t1 ++ t2) = invocations t1 ++ invocations t2.
Proof. apply omap_app. Qed.

Lemma sent_to_app c t1 t2 :
  sent_to c (t1 ++ t2) = sent_to c t1 ++ sent_to c t2.
Proof. apply omap_app. Qed.

Lemma sleeps_app t1 t2 : sleeps (t1 ++ t2) = sleeps t1 ++ sleeps t2.
Proof. apply omap_app. Qed.

Lemma sent_to_same c v : sent_to c [EvSend c v] = [v].
Proof.
  unfold sent_to. simpl.
  destruct (decide (c = c)); [reflexivity | contradiction].
Qed.

Lemma invocations_retry_events req b a k :
  invocations (retry_events req b a k) = replicate k req.
Proof.
  revert b a. induction k as [| k IH]; intros b a; [reflexivity |].
  simpl. unfold invocations in *. simpl. rewrite IH. reflexivity.
Qed.

Lemma sent_to_retry_events c req b a k :
  sent_to c (retry_events req b a k) = [].
Proof.
  revert b a. induction k as [| k IH]; intros b a; [reflexivity |].
  simpl. unfold sent_to in *. simpl. apply IH.
Qed.

Lemma ticks_app t1 t2 : ticks (t1 ++ t2) = (ticks t1 + ticks t2)%nat.
Proof. unfold ticks. rewrite filter_app, length_app. reflexivity. Qed.

Lemma ticks_retry_events req b a k :
  ticks (retry_events req b a k) = 0%nat.
Proof.
  revert b a. induction k as [| k IH]; intros b a; [reflexivity |].
  simpl. unfold ticks in *. rewrite !filter_cons.
  repeat (destruct (decide _); [discriminate |]). apply IH.
Qed.

Lemma backoff_at_succ a :
  (1 <= a)%nat -> backoff_at (S a) = next_backoff (backoff_at a) a.
Proof. destruct a; [lia | reflexivity]. Qed.

Lemma sleeps_retry_events req a k :
  (1 <= a)%nat ->
  sleeps (retry_events req (backoff_at a) a k) = backoff_at <$> seq a k.
Proof.
  revert a. induction k as [| k IH]; intros a Ha; [reflexivity |].
  cbn [retry_events seq]. rewrite fmap_cons, <- backoff_at_succ by lia.
  specialize (IH (S a) ltac:(lia)).
  unfold sleeps in *. cbn [omap list_omap]. rewrite IH. reflexivity.
Qed.

End Ep4_worker.

(** ** Retry budget *)

(** C2. An item whose every downstream invocation is rate-limited is
    invoked exactly [maxRetries] = 5 times, each invocation followed by its
    backoff sleep, and then the outcome "request failed after 5 retries"
    (RetriesExhausted) is delivered on its channel; [sendRequest] returns. *)
Theorem retries_exhausted_after_maxRetries
    (api : nat -> UserRequest -> api_result) req w ch :
  (forall n, snd (api n req) = Some ErrRateLimited) ->
  chans w !! Response req = Some ch ->
  (length (buf ch) < cap ch)%nat ->
  exists w',
    sendRequest api req w = Returned w' /\
    trace w' = trace w ++ retry_events req initial_backoff 1 maxRetries
                 ++ [EvSend (Response req)
                       (Some {| RespData := ""; Err := Some exhausted_error |})] /\
    invocations (trace w') = invocations (trace w) ++ replicate 5 req /\
    calls w' = (calls w + 5)%nat /\
    sent_to (Response req) (trace w') =
      sent_to (Response req) (trace w) ++
        [Some {| RespData := "";
                 Err := Some (Errorf "request failed after 5 retries") |}].
Proof.
  intros Hrl Hc Hroom. unfold sendRequest.
  destruct (loop_shape api req 5 1 initial_backoff w eq_refl)
    as (k & v & w_pre & Hk & Hrun & Hch & Htr & Hcalls & _ & Hv).
  destruct (decide (k = 5%nat)) as [-> | Hne].
  - subst v. rewrite app_nil_r in Htr.
    rewrite Hrun, (chan_send_ready _ _ _ ch) by (rewrite ?Hch; assumption).
    eexists. split; [reflexivity |]. cbn [trace calls].
    rewrite Htr, Hcalls, <- !app_assoc.
    split; [reflexivity |].
    split.
    { rewrite !invocations_app, invocations_retry_events. reflexivity. }
    split; [lia |].
    rewrite !sent_to_app, sent_to_retry_events, sent_to_same. reflexivity.
  - specialize (Hrl (calls w + k)%nat).
    destruct (api (calls w + k)%nat req) as [resp [e |]]; simpl in Hrl.
    + destruct Hv as [Hv _]. congruence.
    + discriminate.
Qed.

(** The hypotheses hold for a downstream that is always rate-limited and a
    request whose channel is fresh. *)
Lemma retries_exhausted_after_maxRetries_witness :
  exists w',
    sendRequest always_rate_limited sample_request sample_world = Returned w' /\
    trace w' = trace sample_world
                 ++ retry_events sample_request initial_backoff 1 maxRetries
                 ++ [EvSend (Response sample_request)
                       (Some {| RespData := ""; Err := Some exhausted_error |})] /\
    invocations (trace w') =
      invocations (trace sample_world) ++ replicate 5 sample_request /\
    calls w' = (calls sample_world + 5)%nat /\
    sent_to (Response sample_request) (trace w') =
      sent_to (Response sample_request) (trace sample_world) ++
        [Some {| RespData := "";
                 Err := Some (Errorf "request failed after 5 retries") |}].
Proof.
  apply (retries_exhausted_after_maxRetries always_rate_limited sample_request
           sample_world (make_chan 1)).
  - intros n. reflexivity.
  - reflexivity.
  - simpl. lia.
Defined.

(** ** Permanent failures *)

(** C8. When the first downstream invocation fails with an error other
    than [ErrRateLimited], [sendRequest] makes that one invocation and
    delivers the error at once: no sleep, no second invocation. *)
Theorem permanent_failure_is_not_retried
    (api : nat -> UserRequest -> api_result) req w ch resp err :
  api (calls w) req = (resp, Some err) ->
  err <> ErrRateLimited ->
  chans w !! Response req = Some ch ->
  (length (buf ch) < cap ch)%nat ->
  exists w',
    sendRequest api req w = Returned w' /\
    trace w' = trace w ++
      [EvCall req;
       EvSend (Response req) (Some {| RespData := ""; Err := Some err |})] /\
    calls w' = S (calls w).
Proof.
  intros Hapi Hne Hc Hroom. unfold sendRequest.
  rewrite (loop_other_error api req 1 initial_backoff w resp err)
    by (unfold maxRetries; lia || assumption).
  rewrite (chan_send_ready _ _ _ ch) by assumption.
  eexists. split; [reflexivity |]. simpl.
  rewrite <- app_assoc. split; reflexivity.
Qed.

(** The hypotheses hold for a downstream that refuses the connection. *)
Lemma permanent_failure_is_not_retried_witness :
  exists w',
    sendRequest always_broken sample_request sample_world = Returned w' /\
    trace w' = trace sample_world ++
      [EvCall sample_request;
       EvSend (Response sample_request)
         (Some {| RespData := ""; Err := Some (Errorf "connection refused") |})] /\
    calls w' = S (calls sample_world).
Proof.
  apply (permanent_failure_is_not_retried always_broken sample_request
           sample_world (make_chan 1) None (Errorf "connection refused")).
  - reflexivity.
  - discriminate.
  - reflexivity.
  - simpl. lia.
Defined.

(** ** Backoff delays *)

Lemma backoff_at_increasing a :
  (1 <= a < maxRetries)%nat -> backoff_at a < backoff_at (S a).
Proof.
  unfold maxRetries. intros Ha.
  assert (a = 1 \/ a = 2 \/ a = 3 \/ a = 4)%nat as [-> | [-> | [-> | ->]]]
    by lia; reflexivity.
Qed.

(** Whatever the downstream answers, the delays [sendRequest] sleeps are,
    in order, those of attempts 1, 2, ..., [k]. *)
Lemma sendRequest_sleeps (api : nat -> UserRequest -> api_result) req w :
  exists k evs,
    (k <= maxRetries)%nat /\
    trace (world_of (sendRequest api req w)) = trace w ++ evs /\
    sleeps evs = backoff_at <$> seq 1 k.
Proof.
  unfold sendRequest.
  destruct (loop_shape api req 5 1 initial_backoff w eq_refl)
    as (k & v & w_pre & Hk & Hrun & _ & Htr & _).
  destruct (chan_send_trace (Response req) v w_pre) as (tail & Htail & Hshape).
  exists k. eexists. split; [exact Hk |].
  rewrite Hrun, Htail, Htr, <- !app_assoc. split; [reflexivity |].
  rewrite !sleeps_app.
  change initial_backoff with (backoff_at 1).
  rewrite sleeps_retry_events by lia.
  assert (sleeps (if decide (k = 5%nat) then [] else [EvCall req]) = []) as ->
    by (destruct (decide _); reflexivity).
  assert (sleeps tail = []) as -> by (destruct Hshape as [-> | ->]; reflexivity).
  rewrite !app_nil_r. reflexivity.
Qed.

(** C9. For every item and every downstream behaviour, each backoff delay
    [sendRequest] sleeps is strictly longer than the one before it: the
    delays slept are those of attempts 1, 2, ..., in order, out of
    0.5s < 1s < 4s < 32s < 512s, and there is no cap. *)
Theorem backoff_strictly_increases
    (api : nat -> UserRequest -> api_result) req w :
  exists k evs,
    (k <= maxRetries)%nat /\
    trace (world_of (sendRequest api req w)) = trace w ++ evs /\
    sleeps evs = backoff_at <$> seq 1 k /\
    backoff_at <$> seq 1 maxRetries
      = [500 * Millisecond; 1 * Second; 4 * Second; 32 * Second; 512 * Second] /\
    forall i d1 d2,
      sleeps evs !! i = Some d1 -> sleeps evs !! S i = Some d2 -> d1 < d2.
Proof.
  destruct (sendRequest_sleeps api req w) as (k & evs & Hk & Htr & Hsl).
  exists k, evs.
  split; [exact Hk |]. split; [exact Htr |]. split; [exact Hsl |].
  split; [reflexivity |].
  intros i d1 d2. rewrite Hsl, !list_lookup_fmap.
  destruct (seq 1 k !! i) as [a |] eqn:Ha; [| discriminate].
  destruct (seq 1 k !! S i) as [b |] eqn:Hb; [| discriminate].
  apply lookup_seq in Ha as [-> _]. apply lookup_seq in Hb as [-> Hlt].
  simpl. intros [= <-] [= <-].
  apply (backoff_at_increasing (S i)). lia.
Qed.


(* ===================================================================== *)
(** * The running system                                                 *)
(* ===================================================================== *)

(** Unfold one step of the system down to the operations on its state. *)
Ltac unfold_step :=
  unfold step, handle, SubmitRequest, Shutdown, processQueue,
    handler_receive, handler_timeout; simpl.

Section Ep4_system.

Variable api : nat -> UserRequest -> api_result.

Lemma enqueued_app t1 t2 : enqueued (t1 ++ t2) = enqueued t1 ++ enqueued t2.
Proof. apply omap_app. Qed.

Lemma dequeued_app t1 t2 : dequeued (t1 ++ t2) = dequeued t1 ++ dequeued t2.
Proof. apply omap_app. Qed.

Lemma enqueued_retry_events req b a k : enqueued (retry_events req b a k) = [].
Proof.
  revert b a. induction k as [| k IH]; intros b a; [reflexivity |].
  simpl. unfold enqueued in *. simpl. apply IH.
Qed.

Lemma dequeued_retry_events req b a k : dequeued (retry_events req b a k) = [].
Proof.
  revert b a. induction k as [| k IH]; intros b a; [reflexivity |].
  simpl. unfold dequeued in *. simpl. apply IH.
Qed.

Lemma dispatch_shape req w :
  exists (k : nat) (v : option APIResponse) (w_pre : World),
    (k <= maxRetries)%nat /\
    dispatch api req w = chan_send (Response req) v w_pre /\
    chans w_pre = chans w /\
    trace w_pre = trace w ++ turn_events req k.
Proof.
  unfold dispatch, sendRequest.
  destruct (loop_shape api req 5 1 initial_backoff
              (ticker_wait (emit (EvDequeue req) w)) eq_refl)
    as (k & v & w_pre & Hk & Hrun & Hch & Htr & _).
  exists k, v, w_pre. repeat split; try assumption.
  rewrite Htr. unfold turn_events. simpl. rewrite <- !app_assoc. reflexivity.
Qed.

Lemma enqueued_turn_events req k : enqueued (turn_events req k) = [].
Proof.
  unfold turn_events. rewrite !enqueued_app, enqueued_retry_events.
  destruct (decide _); reflexivity.
Qed.

Lemma dequeued_turn_events req k : dequeued (turn_events req k) = [req].
Proof.
  unfold turn_events. rewrite !dequeued_app, dequeued_retry_events.
  destruct (decide _); reflexivity.
Qed.

Lemma sent_to_turn_events c req k : sent_to c (turn_events req k) = [].
Proof.
  unfold turn_events. rewrite !sent_to_app, sent_to_retry_events.
  destruct (decide _); reflexivity.
Qed.

Lemma invocations_turn_events req k :
  (k <= maxRetries)%nat ->
  exists n, (1 <= n <= maxRetries)%nat /\
            invocations (turn_events req k) = replicate n req.
Proof.
  intros Hk. unfold turn_events.
  rewrite !invocations_app, invocations_retry_events.
  destruct (decide (k = maxRetries)) as [-> | Hne].
  - exists maxRetries. split; [unfold maxRetries; lia |]. reflexivity.
  - exists (S k). split; [lia |].
    change (invocations [EvDequeue req; EvTick]) with (@nil UserRequest).
    change (invocations [EvCall req]) with [req]. simpl.
    rewrite replicate_cons_app. reflexivity.
Qed.

Lemma sent_to_other c c' v : c' <> c -> sent_to c [EvSend c' v] = [].
Proof.
  intros Hne. unfold sent_to. simpl.
  destruct (decide (c' = c)); [contradiction | reflexivity].
Qed.

(** With the request's channel fresh, the turn runs to its end: the send
    goes through and leaves the outcome in the buffer. *)
Lemma dispatch_ready req w :
  chans w !! Response req = Some (make_chan 1) ->
  exists k v w',
    (k <= maxRetries)%nat /\
    dispatch api req w = Returned w' /\
    chans w' = <[Response req := {| cap := 1; buf := [v] |}]> (chans w) /\
    trace w' = trace w ++ turn_events req k ++ [EvSend (Response req) v].
Proof.
  intros Hc.
  destruct (dispatch_shape req w) as (k & v & w_pre & Hk & Hrun & Hch & Htr).
  exists k, v. eexists. split; [exact Hk |].
  rewrite Hrun, (chan_send_ready _ _ _ (make_chan 1))
    by (rewrite ?Hch; simpl; (assumption || lia)).
  split; [reflexivity |]. simpl. rewrite Hch, Htr, <- app_assoc. split; reflexivity.
Qed.

Lemma lane_inv_init : lane_inv NewRateLimiter.
Proof.
  split; simpl; try done.
  - apply NoDup_nil_2.
  - intros r Hr. inversion Hr.
  - intros r Hr. inversion Hr.
  - intros r Hr. inversion Hr.
  - exists []. split; [reflexivity | split; [constructor | reflexivity]].
Qed.

Lemma lane_inv_handle userID s s' :
  lane_inv s -> step api (AHandle userID) s = Some s' -> lane_inv s'.
Proof.
  intros [Hst Hh Hfifo Hnd Hal Hfr Hsent Huns Hcalls]. unfold_step.
  destruct (decide (userID = "")) as [_ | _].
  { intros [= <-]. split; simpl; assumption. }
  destruct (decide _) as [_ |]; [| discriminate].
  simpl. intros [= <-].
  set (req := {| UserID := userID; Data := "Some data";
                 Response := length (chans (world s)) |}).
  assert (Henq : enqueued (trace (world s) ++ [EvEnqueue req])
                 = enqueued (trace (world s)) ++ [req])
    by (rewrite enqueued_app; reflexivity).
  assert (Hdeq : dequeued (trace (world s) ++ [EvEnqueue req])
                 = dequeued (trace (world s)))
    by (rewrite dequeued_app; simpl; apply app_nil_r).
  assert (Hsnd : forall c, sent_to c (trace (world s) ++ [EvEnqueue req])
                 = sent_to c (trace (world s)))
    by (intros c; rewrite sent_to_app; simpl; apply app_nil_r).
  assert (Hinv : invocations (trace (world s) ++ [EvEnqueue req])
                 = invocations (trace (world s)))
    by (rewrite invocations_app; simpl; apply app_nil_r).
  split; simpl; fold req; rewrite ?Henq, ?Hdeq, ?Hinv; try assumption.
  - rewrite Hfifo, app_assoc. reflexivity.
  - rewrite fmap_app. apply NoDup_app. split; [exact Hnd |]. split.
    + intros c Hc Hc'. apply list_elem_of_singleton in Hc'. subst c.
      apply list_elem_of_fmap in Hc as (r & Hr & Hin).
      apply Hal in Hin. simpl in Hr. lia.
    + apply NoDup_singleton.
  - intros r [Hr | ->%list_elem_of_singleton]%elem_of_app;
      rewrite length_app; simpl; [apply Hal in Hr |]; lia.
  - intros r [Hr | ->%list_elem_of_singleton]%elem_of_app.
    + rewrite lookup_app_l; [apply Hfr, Hr |].
      apply Hal. rewrite Hfifo. apply elem_of_app. right. exact Hr.
    + simpl. rewrite lookup_app_r by lia.
      rewrite Nat.sub_diag. reflexivity.
  - intros r Hr. rewrite Hsnd. apply Hsent, Hr.
  - intros c Hc. rewrite Hsnd. apply Huns, Hc.
Qed.

Lemma lane_inv_worker_recv s s' :
  lane_inv s -> step api AWorkerRecv s = Some s' -> lane_inv s'.
Proof.
  intros [Hst Hh Hfifo Hnd Hal Hfr Hsent Huns Hcalls]. unfold_step.
  destruct (worker s) eqn:Hw; try discriminate.
  destruct (requestChan s) as [| req q] eqn:Hq; [discriminate |].
  destruct (dispatch_ready req (world s)) as (k & v & w' & Hk & Hrun & Hch & Htr).
  { apply Hfr. left. }
  rewrite Hrun. intros [= <-].
  set (t := trace (world s)) in *.
  assert (Henq : enqueued (trace w') = enqueued t).
  { rewrite Htr, !enqueued_app, enqueued_turn_events. simpl.
    rewrite ?app_nil_r. reflexivity. }
  assert (Hdeq : dequeued (trace w') = dequeued t ++ [req]).
  { rewrite Htr, !dequeued_app, dequeued_turn_events. simpl.
    rewrite ?app_nil_r. reflexivity. }
  assert (Hsnd : forall c, sent_to c (trace w')
                 = sent_to c t ++ sent_to c [EvSend (Response req) v]).
  { intros c. rewrite Htr, !sent_to_app, sent_to_turn_events. reflexivity. }
  (* the channels of the requests enqueued so far are pairwise distinct *)
  assert (Hsplit : NoDup (Response <$> (dequeued t ++ req :: q)))
    by (rewrite <- Hfifo; exact Hnd).
  rewrite fmap_app, fmap_cons in Hsplit.
  apply NoDup_app in Hsplit as (_ & Hdisj & Hrest).
  apply NoDup_cons in Hrest as [Hnotin _].
  assert (Hold : forall r, r ∈ dequeued t -> Response r <> Response req).
  { intros r Hr Heq. apply (Hdisj (Response r)).
    - apply list_elem_of_fmap_2, Hr.
    - rewrite Heq. left. }
  split; simpl; rewrite ?Henq, ?Hdeq; try assumption; try done.
  - rewrite Hfifo, <- app_assoc. reflexivity.
  - intros r Hr. rewrite Hch, length_insert. apply Hal, Hr.
  - intros r Hr. rewrite Hch, list_lookup_insert_ne; [apply Hfr; right; exact Hr |].
    intros Heq. apply Hnotin. rewrite Heq. apply list_elem_of_fmap_2, Hr.
  - intros r [Hr | ->%list_elem_of_singleton]%elem_of_app; rewrite Hsnd.
    + destruct (Hsent r Hr) as [v' Hv'].
      exists v'. rewrite Hv', sent_to_other; [reflexivity |].
      intros Heq. apply (Hold r Hr). symmetry. exact Heq.
    + exists v. rewrite (Huns (Response req)), sent_to_same; [reflexivity |].
      exact Hold.
  - intros c Hc. rewrite Hsnd, sent_to_other.
    + rewrite app_nil_r. apply Huns. intros r Hr. apply Hc.
      apply elem_of_app. left. exact Hr.
    + apply Hc. apply elem_of_app. right. left.
  - destruct Hcalls as (counts & Hlen & Hall & Hinv).
    destruct (invocations_turn_events req k Hk) as (n & Hn & Hturn).
    exists (counts ++ [n]). split; [rewrite !length_app, Hlen; reflexivity |].
    split; [apply Forall_app; split; [exact Hall | constructor; [lia | constructor]] |].
    rewrite Htr, !invocations_app, Hturn, Hinv.
    rewrite zip_with_app by exact Hlen. rewrite concat_app. simpl.
    rewrite !app_nil_r. reflexivity.
Qed.

Lemma lane_inv_step a s s' :
  lane_inv s -> step api a s = Some s' -> lane_inv s'.
Proof.
  destruct a as [userID | | | | h | h].
  - apply lane_inv_handle.
  - intros [Hst Hh Hfifo Hnd Hal Hfr Hsent Huns Hcalls]. unfold_step.
    destruct (shutdownChan s); [discriminate |].
    intros [= <-]. split; simpl; try assumption. reflexivity.
  - apply lane_inv_worker_recv.
  - intros [Hst Hh Hfifo Hnd Hal Hfr Hsent Huns Hcalls]. unfold_step.
    destruct (worker s); try discriminate.
    destruct (shutdownChan s); [| discriminate].
    intros [= <-]. split; simpl; try assumption; done.
  - intros [Hst Hh Hfifo Hnd Hal Hfr Hsent Huns Hcalls]. unfold_step.
    destruct (handlers s !! h) as [[req | |] |]; try discriminate.
    destruct (chans (world s) !! Response req) as [[n [| v rest]] |] eqn:Hc;
      try discriminate.
    intros [= <-]. split; simpl; try assumption.
    + intros r Hr. rewrite length_insert. apply Hal, Hr.
    + intros r Hr. rewrite list_lookup_insert_ne; [apply Hfr, Hr |].
      intros Heq. apply Hfr in Hr. rewrite <- Heq, Hc in Hr. discriminate.
  - intros [Hst Hh Hfifo Hnd Hal Hfr Hsent Huns Hcalls]. unfold_step.
    destruct (handlers s !! h) as [[req | |] |]; try discriminate.
    intros [= <-]. split; simpl; assumption.
Qed.

Lemma lane_inv_run acts : forall s s',
  lane_inv s -> run api acts s = Some s' -> lane_inv s'.
Proof.
  induction acts as [| a acts IH]; intros s s' Hs; simpl.
  - intros [= <-]. exact Hs.
  - destruct (step api a s) as [s1 |] eqn:Hstep; [| discriminate].
    apply IH. eapply lane_inv_step; eassumption.
Qed.

End Ep4_system.

(** ** Order of dispatch *)

(** C7. In every reachable state the requests taken from the queue are,
    in order, the first of those put into it (the rest being still queued,
    in their order of arrival), and the downstream invocations are those of
    the dequeued requests in that same order, one to [maxRetries] in a row
    for each: nothing is reordered between [SubmitRequest] and the worker. *)
Theorem dispatch_order_is_enqueue_order
    (api : nat -> UserRequest -> api_result) acts s :
  run api acts NewRateLimiter = Some s ->
  enqueued (trace (world s)) = dequeued (trace (world s)) ++ requestChan s /\
  (forall i r, dequeued (trace (world s)) !! i = Some r ->
               enqueued (trace (world s)) !! i = Some r) /\
  exists counts : list nat,
    length counts = length (dequeued (trace (world s))) /\
    Forall (fun n => 1 <= n <= maxRetries)%nat counts /\
    invocations (trace (world s)) =
      concat (zip_with replicate counts (dequeued (trace (world s)))).
Proof.
  intros Hrun.
  destruct (lane_inv_run api acts _ _ (lane_inv_init) Hrun)
    as [_ _ Hfifo _ _ _ _ _ Hcalls].
  split; [exact Hfifo |]. split; [| exact Hcalls].
  intros i r Hi. rewrite Hfifo. apply lookup_app_l_Some, Hi.
Qed.

(** Three callers; the first request is served after one rate-limited
    attempt, the second at once, the third is queued. *)
Lemma dispatch_order_is_enqueue_order_witness :
  enqueued (trace (world fifo_sample))
    = dequeued (trace (world fifo_sample)) ++ requestChan fifo_sample /\
  (forall i r, dequeued (trace (world fifo_sample)) !! i = Some r ->
               enqueued (trace (world fifo_sample)) !! i = Some r) /\
  exists counts : list nat,
    length counts = length (dequeued (trace (world fifo_sample))) /\
    Forall (fun n => 1 <= n <= maxRetries)%nat counts /\
    invocations (trace (world fifo_sample)) =
      concat (zip_with replicate counts (dequeued (trace (world fifo_sample)))).
Proof.
  apply (dispatch_order_is_enqueue_order (rate_limited_first 1) fifo_schedule).
  vm_compute. reflexivity.
Defined.

(** ** One outcome per request *)

Lemma sent_at_most_once (api : nat -> UserRequest -> api_result) s c :
  lane_inv s -> (length (sent_to c (trace (world s))) <= 1)%nat.
Proof.
  intros [_ _ _ _ _ _ Hsent Huns _].
  destruct (decide (c ∈ Response <$> dequeued (trace (world s)))) as [Hin | Hout].
  - apply list_elem_of_fmap in Hin as (r & -> & Hr).
    destruct (Hsent r Hr) as [v ->]. simpl. lia.
  - rewrite Huns; [simpl; lia |].
    intros r Hr <-. apply Hout, list_elem_of_fmap_2, Hr.
Qed.

(** A reply, once written, stays: the handler has returned. *)
Lemma reply_is_final (api : nat -> UserRequest -> api_result) a s s' h reply :
  handlers s !! h = Some (HReplied reply) ->
  step api a s = Some s' ->
  handlers s' !! h = Some (HReplied reply).
Proof.
  intros Hh. destruct a as [userID | | | | h' | h']; unfold_step.
  - destruct (decide (userID = "")); [| destruct (decide _)];
      try discriminate; simpl; intros [= <-]; simpl;
      apply lookup_app_l_Some, Hh.
  - destruct (shutdownChan s); [discriminate |]. intros [= <-]. exact Hh.
  - destruct (worker s); try discriminate.
    destruct (requestChan s) as [| req q]; [discriminate |].
    destruct (dispatch api req (world s)); intros [= <-]; exact Hh.
  - destruct (worker s); try discriminate.
    destruct (shutdownChan s); [| discriminate]. intros [= <-]. exact Hh.
  - destruct (handlers s !! h') as [[req | |] |] eqn:Hh'; try discriminate.
    destruct (chans (world s) !! Response req) as [[n [| v rest]] |];
      try discriminate.
    intros [= <-]. simpl. rewrite list_lookup_insert_ne; [exact Hh |].
    intros ->. congruence.
  - destruct (handlers s !! h') as [[req | |] |] eqn:Hh'; try discriminate.
    intros [= <-]. simpl. rewrite list_lookup_insert_ne; [exact Hh |].
    intros ->. congruence.
Qed.

(** While the worker is running, it gets through any prefix of the queue:
    one turn per request, none of them blocking. *)
Lemma worker_serves_prefix (api : nat -> UserRequest -> api_result) q1 :
  forall s q2,
    lane_inv s -> worker s = Running -> requestChan s = q1 ++ q2 ->
    exists s',
      run api (replicate (length q1) AWorkerRecv) s = Some s' /\
      lane_inv s' /\ worker s' = Running /\ requestChan s' = q2 /\
      dequeued (trace (world s')) = dequeued (trace (world s)) ++ q1.
Proof.
  induction q1 as [| req q1 IH]; intros s q2 Hinv Hw Hq.
  - exists s. simpl. rewrite app_nil_r. done.
  - destruct (dispatch_ready api req (world s))
      as (k & v & w' & Hk & Hd & Hch & Htr).
    { apply Hinv. rewrite Hq. left. }
    assert (Hstep : step api AWorkerRecv s =
              Some {| requestChan := q1 ++ q2; shutdownChan := shutdownChan s;
                      worker := Running; world := w'; handlers := handlers s |})
      by (unfold_step; rewrite Hw, Hq; simpl; rewrite Hd; reflexivity).
    pose proof (lane_inv_step api _ _ _ Hinv Hstep) as Hinv1.
    destruct (IH _ q2 Hinv1 eq_refl eq_refl) as (s' & Hrun & Hinv' & Hw' & Hq' & Hdq).
    exists s'. cbn [length replicate run]. rewrite Hstep.
    split; [exact Hrun |]. split; [exact Hinv' |]. split; [exact Hw' |].
    split; [exact Hq' |].
    rewrite Hdq. simpl. rewrite Htr, !dequeued_app, dequeued_turn_events.
    simpl. rewrite ?app_nil_r, <- !app_assoc. reflexivity.
Qed.

(** Once the worker has returned, nothing is taken from the queue and
    nothing is written to a [Response] channel any more. *)
Lemma halted_is_final (api : nat -> UserRequest -> api_result) a s s' :
  worker s = Halted ->
  step api a s = Some s' ->
  worker s' = Halted /\
  dequeued (trace (world s')) = dequeued (trace (world s)) /\
  (forall c, sent_to c (trace (world s')) = sent_to c (trace (world s))) /\
  requestChan s `prefix_of` requestChan s'.
Proof.
  intros Hw. destruct a as [userID | | | | h | h]; unfold_step.
  - destruct (decide (userID = "")); [| destruct (decide _)];
      try discriminate; simpl; intros [= <-]; simpl; repeat split; try done.
    + rewrite dequeued_app. simpl. apply app_nil_r.
    + intros c. rewrite sent_to_app. simpl. apply app_nil_r.
    + apply prefix_app_r. reflexivity.
  - destruct (shutdownChan s); [discriminate |]. intros [= <-]. done.
  - rewrite Hw. discriminate.
  - rewrite Hw. discriminate.
  - destruct (handlers s !! h) as [[req | |] |]; try discriminate.
    destruct (chans (world s) !! Response req) as [[n [| v rest]] |];
      try discriminate.
    intros [= <-]. done.
  - destruct (handlers s !! h) as [[req | |] |]; try discriminate.
    intros [= <-]. done.
Qed.

Lemma halted_stays_halted (api : nat -> UserRequest -> api_result) acts :
  forall s s',
    worker s = Halted ->
    run api acts s = Some s' ->
    worker s' = Halted /\
    dequeued (trace (world s')) = dequeued (trace (world s)) /\
    (forall c, sent_to c (trace (world s')) = sent_to c (trace (world s))) /\
    requestChan s `prefix_of` requestChan s'.
Proof.
  induction acts as [| a acts IH]; intros s s' Hw; simpl.
  - intros [= <-]. done.
  - destruct (step api a s) as [s1 |] eqn:Hstep; [| discriminate].
    destruct (halted_is_final api a s s1 Hw Hstep) as (Hw1 & Hd1 & Hs1 & Hp1).
    intros Hrun. destruct (IH s1 s' Hw1 Hrun) as (Hw' & Hd' & Hs' & Hp').
    split; [exact Hw' |]. split; [congruence |].
    split; [intros c; rewrite Hs'; apply Hs1 |].
    etrans; eassumption.
Qed.

(** C6, as the program has it.  In every reachable state: the worker is
    not blocked in a send; each request it took from the queue has had
    exactly one outcome written to its channel, and no channel has had more
    than one; a handler that has replied (with the outcome, or with the
    timeout after its deadline) keeps that reply whatever happens next; and
    while the worker is running, every queued request is reached after the
    turns of those before it, and its turn runs to the end and writes its
    one outcome -- whether or not the caller is still waiting.  A request
    still queued when the worker has halted has had no outcome written and
    never gets one. *)
Theorem one_outcome_per_dispatched_request
    (api : nat -> UserRequest -> api_result) acts s :
  run api acts NewRateLimiter = Some s ->
  worker s <> Stuck /\
  (forall r, r ∈ dequeued (trace (world s)) ->
     exists v, sent_to (Response r) (trace (world s)) = [v]) /\
  (forall c, (length (sent_to c (trace (world s))) <= 1)%nat) /\
  (forall h reply a s',
     handlers s !! h = Some (HReplied reply) ->
     step api a s = Some s' ->
     handlers s' !! h = Some (HReplied reply)) /\
  (forall q1 req q2,
     worker s = Running -> requestChan s = q1 ++ req :: q2 ->
     exists s' v,
       run api (replicate (S (length q1)) AWorkerRecv) s = Some s' /\
       worker s' = Running /\
       sent_to (Response req) (trace (world s')) = [v]) /\
  (forall r acts' s',
     worker s = Halted -> r ∈ requestChan s ->
     run api acts' s = Some s' ->
     sent_to (Response r) (trace (world s')) = []).
Proof.
  intros Hrun.
  pose proof (lane_inv_run api acts _ _ lane_inv_init Hrun) as Hinv.
  split; [apply Hinv |]. split; [apply Hinv |].
  split; [intros c; apply (sent_at_most_once api), Hinv |].
  split; [intros h reply a s'; apply reply_is_final |].
  split.
  - intros q1 req q2 Hw Hq.
    destruct (worker_serves_prefix api (q1 ++ [req]) s q2 Hinv Hw)
      as (s' & Hrun' & Hinv' & Hw' & _ & Hdq).
    { rewrite Hq, <- app_assoc. reflexivity. }
    rewrite length_app, Nat.add_comm in Hrun'. simpl in Hrun'.
    destruct (inv_sent _ Hinv' req) as [v Hv].
    { rewrite Hdq. apply elem_of_app. right. apply elem_of_app. right. left. }
    exists s', v. split; [exact Hrun' |]. split; [exact Hw' | exact Hv].
  - intros r acts' s' Hw Hr Hrun'.
    destruct (halted_stays_halted api acts' s s' Hw Hrun') as (_ & _ & Hsame & _).
    rewrite Hsame. apply (inv_unsent _ Hinv).
    intros r' Hr' Heq.
    pose proof (inv_nodup _ Hinv) as Hnd.
    rewrite (inv_fifo _ Hinv), fmap_app in Hnd.
    apply NoDup_app in Hnd as (_ & Hdisj & _).
    apply (Hdisj (Response r')).
    + apply list_elem_of_fmap_2, Hr'.
    + rewrite Heq. apply list_elem_of_fmap_2, Hr.
Qed.

(** The first caller times out, then the worker serves its request: the
    write goes through all the same. *)
Lemma one_outcome_per_dispatched_request_witness :
  worker abandon_sample <> Stuck /\
  (forall r, r ∈ dequeued (trace (world abandon_sample)) ->
     exists v, sent_to (Response r) (trace (world abandon_sample)) = [v]) /\
  (forall c, (length (sent_to c (trace (world abandon_sample))) <= 1)%nat) /\
  (forall h reply a s',
     handlers abandon_sample !! h = Some (HReplied reply) ->
     step always_ok a abandon_sample = Some s' ->
     handlers s' !! h = Some (HReplied reply)) /\
  (forall q1 req q2,
     worker abandon_sample = Running ->
     requestChan abandon_sample = q1 ++ req :: q2 ->
     exists s' v,
       run always_ok (replicate (S (length q1)) AWorkerRecv) abandon_sample
         = Some s' /\
       worker s' = Running /\
       sent_to (Response req) (trace (world s')) = [v]) /\
  (forall r acts' s',
     worker abandon_sample = Halted -> r ∈ requestChan abandon_sample ->
     run always_ok acts' abandon_sample = Some s' ->
     sent_to (Response r) (trace (world s')) = []).
Proof.
  apply (one_outcome_per_dispatched_request always_ok abandon_schedule).
  vm_compute. reflexivity.
Defined.

(** ** Shutdown *)

(** C4, as the program has it.  When the worker has halted: [Shutdown]
    was called; every request the worker took from the queue -- the one in
    flight when [Shutdown] was called included -- has had its one outcome
    written; every handler still waiting can take its timeout branch and
    reply; and from then on nothing is dequeued or delivered, so requests
    still queued (and any queued later) stay there. *)
Theorem shutdown_halts_without_draining
    (api : nat -> UserRequest -> api_result) acts s :
  run api acts NewRateLimiter = Some s ->
  worker s = Halted ->
  shutdownChan s = true /\
  (forall r, r ∈ dequeued (trace (world s)) ->
     exists v, sent_to (Response r) (trace (world s)) = [v]) /\
  (forall h req, handlers s !! h = Some (HWaiting req) ->
     exists s', step api (ATimeout h) s = Some s' /\
                handlers s' !! h = Some on_timeout) /\
  (forall acts' s', run api acts' s = Some s' ->
     worker s' = Halted /\
     dequeued (trace (world s')) = dequeued (trace (world s)) /\
     (forall c, sent_to c (trace (world s')) = sent_to c (trace (world s))) /\
     requestChan s `prefix_of` requestChan s').
Proof.
  intros Hrun Hw.
  pose proof (lane_inv_run api acts _ _ lane_inv_init Hrun) as Hinv.
  split; [apply Hinv, Hw |]. split; [apply Hinv |].
  split.
  - intros h req Hh. unfold_step. rewrite Hh. eexists. split; [reflexivity |].
    simpl. apply list_lookup_insert_eq. eapply lookup_lt_Some, Hh.
  - intros acts' s'. apply halted_stays_halted, Hw.
Qed.

(** One request queued, then [Shutdown], then the worker takes the signal. *)
Lemma shutdown_halts_without_draining_witness :
  shutdownChan shutdown_sample = true /\
  (forall r, r ∈ dequeued (trace (world shutdown_sample)) ->
     exists v, sent_to (Response r) (trace (world shutdown_sample)) = [v]) /\
  (forall h req, handlers shutdown_sample !! h = Some (HWaiting req) ->
     exists s', step always_ok (ATimeout h) shutdown_sample = Some s' /\
                handlers s' !! h = Some on_timeout) /\
  (forall acts' s', run always_ok acts' shutdown_sample = Some s' ->
     worker s' = Halted /\
     dequeued (trace (world s')) = dequeued (trace (world shutdown_sample)) /\
     (forall c, sent_to c (trace (world s'))
                = sent_to c (trace (world shutdown_sample))) /\
     requestChan shutdown_sample `prefix_of` requestChan s').
Proof.
  apply (shutdown_halts_without_draining always_ok shutdown_schedule).
  - vm_compute. reflexivity.
  - reflexivity.
Defined.

(** C4, as stated, fails: with one request queued, [Shutdown] is called
    and the worker's [select] takes the shutdown signal.  The worker has
    halted, the request is still in the queue, nothing was written to its
    channel, and the worker will not take it. *)
Lemma shutdown_leaves_the_queue_undrained :
  run always_ok shutdown_schedule NewRateLimiter = Some shutdown_sample /\
  worker shutdown_sample = Halted /\
  requestChan shutdown_sample = [sample_request] /\
  handlers shutdown_sample = [HWaiting sample_request] /\
  sent_to (Response sample_request) (trace (world shutdown_sample)) = [] /\
  step always_ok AWorkerRecv shutdown_sample = None.
Proof. vm_compute. repeat split; reflexivity. Qed.

(** C6, as stated, fails for a request that is not dispatched: a request
    was submitted and its handler waits, [Shutdown] is called and the worker
    takes the signal.  Whatever happens afterwards, no outcome is ever
    written for that request. *)
Lemma queued_request_gets_no_outcome_once_halted :
  run always_ok shutdown_schedule NewRateLimiter = Some shutdown_sample /\
  sample_request ∈ enqueued (trace (world shutdown_sample)) /\
  handlers shutdown_sample !! 0%nat = Some (HWaiting sample_request) /\
  (forall acts s',
     run always_ok acts shutdown_sample = Some s' ->
     sent_to (Response sample_request) (trace (world s')) = []).
Proof.
  split; [vm_compute; reflexivity |].
  split; [vm_compute; left |].
  split; [reflexivity |].
  intros acts s' Hrun.
  destruct (halted_stays_halted always_ok acts shutdown_sample s' eq_refl Hrun)
    as (_ & _ & Hsame & _).
  rewrite Hsame. reflexivity.
Qed.

(** ** Throttle *)

Lemma backoff_at_ge a :
  (1 <= a <= maxRetries)%nat -> initial_backoff <= backoff_at a.
Proof.
  unfold maxRetries. intros Ha.
  assert (a = 1 \/ a = 2 \/ a = 3 \/ a = 4 \/ a = 5)%nat
    as [-> | [-> | [-> | [-> | ->]]]] by lia;
    apply Z.leb_le; vm_compute; reflexivity.
Qed.

(** After a sleep of at least the base delay, further rate-limited
    attempts, the last call if any and the final send keep every call
    straight after such a sleep. *)
Lemma backed_off_retry_events req c v (k : nat) : forall (a : nat) d last tail,
  (1 <= a)%nat -> (a + k <= S maxRetries)%nat ->
  initial_backoff <= d ->
  last = [] \/ last = [EvCall req] ->
  tail = [] \/ tail = [EvSend c v] ->
  backed_off (Some d) (retry_events req (backoff_at a) a k ++ last ++ tail) = true.
Proof.
  induction k as [| k IH]; intros a d last tail Ha Hk Hd Hlast Htail.
  - simpl. apply Z.leb_le in Hd.
    destruct Hlast as [-> | ->], Htail as [-> | ->]; simpl; rewrite ?Hd; reflexivity.
  - cbn [retry_events app backed_off].
    apply Z.leb_le in Hd. rewrite Hd. cbn [andb].
    rewrite <- backoff_at_succ by lia.
    apply IH; try assumption; try lia.
    apply backoff_at_ge. lia.
Qed.

(** C1, as the program has it.  In each turn of the worker the ticker is
    waited for exactly once, after the dequeue and before the first
    downstream invocation.  No later invocation of the turn (a retry)
    waits for the ticker: each comes straight after a backoff sleep of at
    least the base delay, which is longer than the ticker's period. *)
Theorem one_release_signal_per_item
    (api : nat -> UserRequest -> api_result) req w :
  exists evs,
    trace (world_of (dispatch api req w))
      = trace w ++ [EvDequeue req; EvTick; EvCall req] ++ evs /\
    ticks evs = 0%nat /\
    backed_off None evs = true /\
    tickerInterval < initial_backoff.
Proof.
  destruct (dispatch_shape api req w) as (k & v & w_pre & Hk & Hrun & _ & Htr).
  destruct (chan_send_trace (Response req) v w_pre) as (tail & Htail & Hshape).
  rewrite Hrun, Htail, Htr. unfold turn_events.
  destruct k as [| k].
  - exists tail. simpl. rewrite <- app_assoc.
    split; [reflexivity |].
    destruct Hshape as [-> | ->]; repeat split; reflexivity.
  - exists (EvSleep initial_backoff ::
            retry_events req (next_backoff initial_backoff 1) 2 k
              ++ (if decide (S k = maxRetries) then [] else [EvCall req]) ++ tail).
    split; [cbn [retry_events]; rewrite <- !app_assoc; reflexivity |].
    split; [| split; [| reflexivity]].
    + change (EvSleep initial_backoff :: ?l) with ([EvSleep initial_backoff] ++ l).
      rewrite !ticks_app, ticks_retry_events.
      destruct (decide (S k = maxRetries)), Hshape as [-> | ->]; reflexivity.
    + cbn [backed_off].
      change (next_backoff initial_backoff 1) with (backoff_at 2).
      apply (backed_off_retry_events req (Response req) v).
      * lia.
      * unfold maxRetries in *. lia.
      * apply Z.le_refl.
      * destruct (decide (S k = maxRetries)); auto.
      * exact Hshape.
Qed.

(** C1, as stated, fails: a request whose first attempt is rate-limited
    is invoked a second time after the backoff sleep alone.  The turn has
    two invocations and one tick; the second invocation has no release
    signal of its own. *)
Lemma retry_does_not_wait_for_the_ticker :
  trace (world_of (dispatch (rate_limited_first 1) sample_request sample_world))
    = [EvDequeue sample_request; EvTick;
       EvCall sample_request; EvSleep (500 * Millisecond);
       EvCall sample_request;
       EvSend 0 (Some {| RespData := "Processed data for user alice";
                         Err := None |})] /\
  gated false
    (trace (world_of (dispatch (rate_limited_first 1) sample_request sample_world)))
    = false /\
  ticks
    (trace (world_of (dispatch (rate_limited_first 1) sample_request sample_world)))
    = 1%nat /\
  invocations
    (trace (world_of (dispatch (rate_limited_first 1) sample_request sample_world)))
    = [sample_request; sample_request].
Proof. vm_compute. repeat split; reflexivity. Qed.

(** ** What the caller is told *)



(** ** The backoff policy, against its description *)

(** C3, as the program has it.  The delays [sendRequest] sleeps depend on
    the attempt number alone: the [i]-th sleep is [backoff_at (i+1)],
    whatever the request and the downstream.  The first is the base delay,
    500ms; after attempt [a] the delay is multiplied by 2^a, so it at least
    doubles from each attempt to the next. *)
Theorem backoff_depends_on_attempt_and_at_least_doubles
    (api : nat -> UserRequest -> api_result) req w :
  exists k evs,
    (k <= maxRetries)%nat /\
    trace (world_of (sendRequest api req w)) = trace w ++ evs /\
    sleeps evs = backoff_at <$> seq 1 k /\
    backoff_at 1 = 500 * Millisecond /\
    forall a, (1 <= a < maxRetries)%nat ->
      backoff_at (S a) = backoff_at a * 2 ^ Z.of_nat a /\
      2 * backoff_at a <= backoff_at (S a).
Proof.
  destruct (sendRequest_sleeps api req w) as (k & evs & Hk & Htr & Hsl).
  exists k, evs. repeat split; try assumption.
  all: unfold maxRetries in *;
    assert (a = 1 \/ a = 2 \/ a = 3 \/ a = 4)%nat
      as [-> | [-> | [-> | ->]]] by lia;
    try reflexivity; apply Z.leb_le; vm_compute; reflexivity.
Qed.

(** C3, as stated, fails: a run of rate-limited attempts sleeps 0.5s, 1s,
    4s, 32s, 512s, where base * 2^attempt gives 1s, 2s, 4s, 8s, 16s
    (0.5s, 1s, 2s, 4s, 8s counting attempts from 0); and the delays have
    no common ratio. *)
Lemma backoff_is_not_base_times_power_of_two :
  sleeps (trace (world_of
            (sendRequest always_rate_limited sample_request sample_world)))
    = [500 * Millisecond; 1 * Second; 4 * Second; 32 * Second; 512 * Second] /\
  spec_NextDelay <$> seq 1 5
    = [1 * Second; 2 * Second; 4 * Second; 8 * Second; 16 * Second] /\
  spec_NextDelay <$> seq 0 5
    = [500 * Millisecond; 1 * Second; 2 * Second; 4 * Second; 8 * Second] /\
  backoff_at 1 <> spec_NextDelay 1 /\
  backoff_at 4 <> spec_NextDelay 4 /\
  backoff_at 2 * backoff_at 2 <> backoff_at 1 * backoff_at 3.
Proof. vm_compute. repeat split; discriminate. Qed.

(* ===================================================================== *)
(** * Properties of the fixed-window counter (ep2)                       *)
(* ===================================================================== *)

(** C10. With storage disabled, [Limit] returns the error "storage
    unavailable" (and [false]) and leaves the limiter -- the visitors map in
    particular -- as it was, whatever the state, the user and the clock;
    with storage enabled it returns no error.  In particular so after
    [SimulateStorageFailure], which itself leaves the visitors untouched. *)
Theorem limit_errors_exactly_when_storage_is_disabled
    (rl : Ep2.RateLimiter) (userID : string) (t1 t2 : Ep2.Time) :
  (if Ep2.storageEnabled rl
   then snd (fst (Ep2.Limit userID t1 t2 rl)) = None
   else Ep2.Limit userID t1 t2 rl = ((false, Some Ep2.storage_unavailable), rl)) /\
  Ep2.Limit userID t1 t2 (Ep2.SimulateStorageFailure false rl)
    = ((false, Some Ep2.storage_unavailable), Ep2.SimulateStorageFailure false rl) /\
  Ep2.visitors (snd (Ep2.Limit userID t1 t2 (Ep2.SimulateStorageFailure false rl)))
    = Ep2.visitors rl /\
  snd (fst (Ep2.Limit userID t1 t2 (Ep2.SimulateStorageFailure true rl))) = None.
Proof.
  assert (Hon : forall r, Ep2.storageEnabled r = true ->
                          snd (fst (Ep2.Limit userID t1 t2 r)) = None).
  { intros r Hr. unfold Ep2.Limit. rewrite Hr. simpl.
    destruct (Ep2.visitors r !! userID) as [visitor |]; [| reflexivity].
    destruct (decide _); reflexivity. }
  split; [| split; [reflexivity | split; [reflexivity | apply Hon; reflexivity]]].
  destruct (Ep2.storageEnabled rl) eqn:Hs; [apply Hon, Hs |].
  unfold Ep2.Limit. rewrite Hs. reflexivity.
Qed.

(** The counter at work: within one window the sixth request of a user is
    the first to be limited; with storage disabled the call fails and the
    recorded visit stays as it was. *)
Example limit_sixth_request_in_window :
  let hit t rl := snd (Ep2.Limit "alice" t t rl) in
  let rl4 := hit 4 (hit 3 (hit 2 (hit 1 Ep2.NewRateLimiter))) in
  let rl5 := hit 5 rl4 in
  fst (fst (Ep2.Limit "alice" 5 5 rl4)) = false /\
  fst (fst (Ep2.Limit "alice" 6 6 rl5)) = true /\
  Ep2.visitors rl5 !! "alice" = Some {| Ep2.lastSeen := 5; Ep2.requests := 5 |} /\
  Ep2.Limit "alice" 7 7 (Ep2.SimulateStorageFailure false rl5)
    = ((false, Some Ep2.storage_unavailable),
       Ep2.SimulateStorageFailure false rl5).
Proof. vm_compute. repeat split; reflexivity. Qed.


(* ===================================================================== *)
(** * More on the fixed-window counter (ep2)                             *)
(* ===================================================================== *)

Section Ep2_more.

Import Ep2.

Lemma int_incr_small n : - 2 ^ 63 <= n + 1 < 2 ^ 63 -> int_incr n = n + 1.
Proof.
  intros Hn. unfold int_incr. rewrite Z.mod_small by lia. lia.
Qed.

Lemma Sub_mono t t' u : t <= t' -> Sub t u <= Sub t' u.
Proof. unfold Sub, minDuration, maxDuration. lia. Qed.

(** X1. [Limit] reads and writes the entry of the calling user only: every
    other visitor, and the storage flag, are as before; and with storage
    enabled the caller is on record afterwards. *)
Theorem Limit_touches_only_the_caller rl userID t1 t2 other :
  other <> userID ->
  visitors (snd (Limit userID t1 t2 rl)) !! other = visitors rl !! other /\
  storageEnabled (snd (Limit userID t1 t2 rl)) = storageEnabled rl /\
  (storageEnabled rl = true ->
   is_Some (visitors (snd (Limit userID t1 t2 rl)) !! userID)).
Proof.
  intros Hne. unfold Limit.
  destruct (storageEnabled rl) eqn:Hs; simpl.
  - destruct (visitors rl !! userID) as [visitor |];
      [destruct (decide _) |]; simpl;
      rewrite lookup_insert_ne, lookup_insert_eq by congruence; eauto.
  - repeat split; done.
Qed.

Lemma Limit_touches_only_the_caller_witness :
  visitors (snd (Limit "alice" 1 2 NewRateLimiter)) !! "bob"
    = visitors NewRateLimiter !! "bob" /\
  storageEnabled (snd (Limit "alice" 1 2 NewRateLimiter))
    = storageEnabled NewRateLimiter /\
  (storageEnabled NewRateLimiter = true ->
   is_Some (visitors (snd (Limit "alice" 1 2 NewRateLimiter)) !! "alice")).
Proof.
  apply (Limit_touches_only_the_caller NewRateLimiter "alice" 1 2 "bob").
  discriminate.
Defined.

(** A run of requests of a visitor on record with count [n], each within
    the window of the one before: the [k]-th is refused exactly when
    [n + k] exceeds the limit, and the count ends at [n] plus their number. *)
Lemma Limit_each_steady userID ts : forall rl last n,
  storageEnabled rl = true ->
  visitors rl !! userID = Some {| lastSeen := last; requests := n |} ->
  0 <= n -> n + Z.of_nat (length ts) < 2 ^ 63 ->
  steady last ts ->
  fst (Limit_each userID ts rl)
    = (fun k : nat => (bool_decide (n + Z.of_nat k > RequestLimit), None))
        <$> seq 1 (length ts) /\
  snd (Limit_each userID ts rl)
    = {| visitors :=
           <[userID := {| lastSeen := last_seen last ts;
                          requests := n + Z.of_nat (length ts) |}]> (visitors rl);
         storageEnabled := true |}.
Proof.
  induction ts as [| [t1 t2] ts IH]; intros rl last n Hs Hv Hn Hlen Hsteady.
  - simpl. split; [reflexivity |].
    rewrite Z.add_0_r, insert_id by exact Hv.
    destruct rl; simpl in *; congruence.
  - destruct Hsteady as [Hgap Hsteady]. cbn [length] in Hlen.
    assert (HL : Limit userID t1 t2 rl =
              ((bool_decide (n + 1 > RequestLimit), None),
               {| visitors := <[userID := {| lastSeen := t2; requests := n + 1 |}]>
                                (visitors rl);
                  storageEnabled := true |})).
    { unfold Limit. rewrite Hs, Hv. simpl.
      destruct (decide (Sub t1 last > TimeWindow)); [lia |].
      rewrite int_incr_small by lia. reflexivity. }
    cbn [Limit_each]. rewrite HL. cbn [fst snd].
    destruct (IH {| visitors := <[userID := {| lastSeen := t2; requests := n + 1 |}]>
                                  (visitors rl);
                    storageEnabled := true |} t2 (n + 1)) as [IHv IHs];
      try done; try lia.
    { simpl. apply lookup_insert_eq. }
    rewrite IHv, IHs. simpl. split.
    + f_equal. rewrite <- (fmap_S_seq 1), <- list_fmap_compose.
      apply list_fmap_ext. intros _ k _. simpl.
      replace (n + 1 + Z.of_nat k) with (n + Z.of_nat (S k)) by lia.
      reflexivity.
    + rewrite insert_insert_eq. do 3 f_equal. lia.
Qed.

(** X2. A user not on record sends a run of requests, each within the
    window of the one before.  The first five are admitted and every later
    one is refused, for as long as the run lasts: a refused request
    refreshes the recorded time like any other.  Once the user has been
    silent for more than the window, the next request is admitted and the
    count starts again at one. *)
Theorem burst_is_cut_at_the_limit_until_a_quiet_window
    rl userID a b rest :
  storageEnabled rl = true ->
  visitors rl !! userID = None ->
  steady a rest ->
  Z.of_nat (S (length rest)) < 2 ^ 63 ->
  fst (Limit_each userID ((a, b) :: rest) rl)
    = (fun k : nat => (bool_decide (Z.of_nat k > RequestLimit), None))
        <$> seq 1 (S (length rest)) /\
  forall t1 t2,
    Sub t1 (last_seen a rest) > TimeWindow ->
    Limit userID t1 t2 (snd (Limit_each userID ((a, b) :: rest) rl))
      = ((false, None),
         {| visitors := <[userID := {| lastSeen := t2; requests := 1 |}]>
                          (visitors rl);
            storageEnabled := true |}).
Proof.
  intros Hs Hv Hsteady Hlen.
  assert (HL : Limit userID a b rl =
            ((false, None),
             {| visitors := <[userID := {| lastSeen := a; requests := 1 |}]>
                              (visitors rl);
                storageEnabled := true |})).
  { unfold Limit. rewrite Hs, Hv. reflexivity. }
  cbn [Limit_each]. rewrite HL. cbn [fst snd].
  destruct (Limit_each_steady userID rest
              {| visitors := <[userID := {| lastSeen := a; requests := 1 |}]>
                               (visitors rl);
                 storageEnabled := true |} a 1) as [Hverdicts Hstate];
    try done; try lia.
  { simpl. apply lookup_insert_eq. }
  rewrite Hverdicts, Hstate. split.
  - cbn [seq]. rewrite fmap_cons. f_equal.
    rewrite <- (fmap_S_seq 1), <- list_fmap_compose.
    apply list_fmap_ext. intros _ k _. simpl.
    replace (1 + Z.of_nat k) with (Z.of_nat (S k)) by lia.
    reflexivity.
  - intros t1 t2 Hquiet. unfold Limit. simpl.
    rewrite lookup_insert_eq. simpl.
    destruct (decide (Sub t1 (last_seen a rest) > TimeWindow)); [| contradiction].
    rewrite !insert_insert_eq. reflexivity.
Qed.

Lemma burst_is_cut_at_the_limit_until_a_quiet_window_witness :
  fst (Limit_each "alice"
         ((0, 1) :: [(2, 3); (4, 5); (6, 7); (8, 9); (10, 11); (12, 13)])
         NewRateLimiter)
    = (fun k : nat => (bool_decide (Z.of_nat k > RequestLimit), None))
        <$> seq 1 7 /\
  forall t1 t2,
    Sub t1 (last_seen 0 [(2, 3); (4, 5); (6, 7); (8, 9); (10, 11); (12, 13)])
      > TimeWindow ->
    Limit "alice" t1 t2
      (snd (Limit_each "alice"
              ((0, 1) :: [(2, 3); (4, 5); (6, 7); (8, 9); (10, 11); (12, 13)])
              NewRateLimiter))
      = ((false, None),
         {| visitors := <[ "alice" := {| lastSeen := t2; requests := 1 |}]>
                          (visitors NewRateLimiter);
            storageEnabled := true |}).
Proof.
  apply (burst_is_cut_at_the_limit_until_a_quiet_window NewRateLimiter
           "alice" 0 1 [(2, 3); (4, 5); (6, 7); (8, 9); (10, 11); (12, 13)]).
  - reflexivity.
  - reflexivity.
  - vm_compute. repeat split; discriminate.
  - vm_compute. reflexivity.
Defined.

(** X3. A sweep of [cleanupVisitors] keeps exactly the visitors seen within
    the window, unchanged, and leaves the storage flag alone; and, the
    clock not running backwards, it cannot be noticed through [Limit]: the
    verdict for any user is the same with the sweep as without, and so is
    the count recorded for that user afterwards (when storage is enabled,
    that is, when [Limit] records at all). *)
Theorem cleanup_is_invisible_to_Limit now rl userID t1 t2 :
  now userID <= t1 ->
  (forall id v,
     visitors (cleanupVisitors_sweep now rl) !! id = Some v <->
     visitors rl !! id = Some v /\ Sub (now id) (lastSeen v) <= TimeWindow) /\
  storageEnabled (cleanupVisitors_sweep now rl) = storageEnabled rl /\
  fst (Limit userID t1 t2 (cleanupVisitors_sweep now rl))
    = fst (Limit userID t1 t2 rl) /\
  (storageEnabled rl = true ->
   requests <$> visitors (snd (Limit userID t1 t2 (cleanupVisitors_sweep now rl)))
                  !! userID
     = requests <$> visitors (snd (Limit userID t1 t2 rl)) !! userID).
Proof.
  intros Hclock.
  assert (Hsweep : forall id v,
            visitors (cleanupVisitors_sweep now rl) !! id = Some v <->
            visitors rl !! id = Some v /\ Sub (now id) (lastSeen v) <= TimeWindow).
  { intros id v. unfold cleanupVisitors_sweep. simpl.
    rewrite map_lookup_filter_Some. simpl.
    split; intros [H1 H2]; (split; [exact H1 |]).
    - apply Znot_gt_le, H2.
    - apply Zle_not_gt, H2. }
  split; [exact Hsweep |]. split; [reflexivity |].
  unfold Limit. simpl.
  destruct (storageEnabled rl); simpl; [| split; [reflexivity | discriminate]].
  destruct (visitors rl !! userID) as [v |] eqn:Hv.
  - destruct (decide (Sub (now userID) (lastSeen v) <= TimeWindow)) as [Hfresh | Hold].
    + assert (visitors (cleanupVisitors_sweep now rl) !! userID = Some v) as Hkept
        by (apply Hsweep; done).
      simpl in Hkept. rewrite Hkept.
      destruct (decide _); simpl; rewrite !lookup_insert_eq; done.
    + assert (visitors (cleanupVisitors_sweep now rl) !! userID = None) as Hgone.
      { destruct (visitors (cleanupVisitors_sweep now rl) !! userID) as [v' |] eqn:Hv';
          [| reflexivity].
        apply Hsweep in Hv' as [Hv' Hfresh].
        assert (v' = v) by congruence. subst v'. contradiction. }
      simpl in Hgone. rewrite Hgone.
      pose proof (Sub_mono _ _ (lastSeen v) Hclock).
      destruct (decide (Sub t1 (lastSeen v) > TimeWindow)); [| lia].
      simpl. rewrite !lookup_insert_eq. done.
  - assert (visitors (cleanupVisitors_sweep now rl) !! userID = None) as Hgone.
    { destruct (visitors (cleanupVisitors_sweep now rl) !! userID) as [v' |] eqn:Hv';
        [| reflexivity].
      apply Hsweep in Hv' as [Hv' _]. congruence. }
    simpl in Hgone. rewrite Hgone. simpl. rewrite !lookup_insert_eq. done.
Qed.

(** The sweep runs at time 100s; a visitor last seen at 10s is dropped,
    and asks again at 101s. *)
Lemma cleanup_is_invisible_to_Limit_witness :
  (forall id v,
     visitors (cleanupVisitors_sweep (fun _ => 100 * Second)
                 (snd (Limit "alice" (10 * Second) (10 * Second) NewRateLimiter)))
       !! id = Some v <->
     visitors (snd (Limit "alice" (10 * Second) (10 * Second) NewRateLimiter))
       !! id = Some v /\
     Sub ((fun _ => 100 * Second) id) (lastSeen v) <= TimeWindow) /\
  storageEnabled
    (cleanupVisitors_sweep (fun _ => 100 * Second)
       (snd (Limit "alice" (10 * Second) (10 * Second) NewRateLimiter)))
    = storageEnabled (snd (Limit "alice" (10 * Second) (10 * Second) NewRateLimiter)) /\
  fst (Limit "alice" (101 * Second) (101 * Second)
         (cleanupVisitors_sweep (fun _ => 100 * Second)
            (snd (Limit "alice" (10 * Second) (10 * Second) NewRateLimiter))))
    = fst (Limit "alice" (101 * Second) (101 * Second)
             (snd (Limit "alice" (10 * Second) (10 * Second) NewRateLimiter))) /\
  (storageEnabled (snd (Limit "alice" (10 * Second) (10 * Second) NewRateLimiter))
     = true ->
   requests <$>
     visitors (snd (Limit "alice" (101 * Second) (101 * Second)
                      (cleanupVisitors_sweep (fun _ => 100 * Second)
                         (snd (Limit "alice" (10 * Second) (10 * Second)
                                 NewRateLimiter))))) !! "alice"
     = requests <$>
         visitors (snd (Limit "alice" (101 * Second) (101 * Second)
                          (snd (Limit "alice" (10 * Second) (10 * Second)
                                  NewRateLimiter)))) !! "alice").
Proof.
  apply (cleanup_is_invisible_to_Limit (fun _ => 100 * Second)
           (snd (Limit "alice" (10 * Second) (10 * Second) NewRateLimiter))
           "alice" (101 * Second) (101 * Second)).
  vm_compute. discriminate.
Defined.

(** X4. The middleware answers 429 exactly when the request names a user,
    storage is enabled, and that user is on record within the window with
    the limit already reached; the 429 then carries [Retry-After: 60] and
    the body "Rate limit exceeded".  A request without user is answered
    400 and leaves the limiter untouched. *)
Theorem middleware_refuses_exactly_over_the_limit next userID t1 t2 rl :
  status next <> StatusTooManyRequests ->
  (status (fst (rateLimiterMiddleware next userID t1 t2 rl)) = StatusTooManyRequests
   <->
   userID <> "" /\ storageEnabled rl = true /\
   exists v, visitors rl !! userID = Some v /\
             Sub t1 (lastSeen v) <= TimeWindow /\
             int_incr (requests v) > RequestLimit) /\
  (status (fst (rateLimiterMiddleware next userID t1 t2 rl)) = StatusTooManyRequests ->
   fst (rateLimiterMiddleware next userID t1 t2 rl)
     = {| status := 429; header_RetryAfter := Some "60";
          body := "Rate limit exceeded" +:+ newline |}) /\
  (userID = "" ->
   rateLimiterMiddleware next userID t1 t2 rl
     = ({| status := 400; header_RetryAfter := None;
           body := "X-User-ID header is required" +:+ newline |}, rl)).
Proof.
  intros Hnext. unfold rateLimiterMiddleware, Limit.
  destruct (decide (userID = "")) as [Hu | Hu]; simpl.
  { split; [split; [discriminate | intros [? _]; contradiction] |].
    split; [discriminate | reflexivity]. }
  destruct (storageEnabled rl); simpl.
  2:{ split; [split; [contradiction | intros (_ & [=] & _)] |].
      split; [contradiction | contradiction]. }
  destruct (visitors rl !! userID) as [v |]; simpl.
  2:{ split; [split; [contradiction | intros (_ & _ & v & [=] & _)] |].
      split; contradiction. }
  destruct (decide (Sub t1 (lastSeen v) > TimeWindow)) as [Hold | Hfresh]; simpl.
  { split; [split; [contradiction | intros (_ & _ & v' & [= <-] & ? & _); lia] |].
    split; contradiction. }
  destruct (bool_decide (int_incr (requests v) > RequestLimit)) eqn:Hlim; simpl.
  - apply bool_decide_eq_true in Hlim.
    split; [split; [intros _ | reflexivity] | split; [reflexivity | contradiction]].
    split; [exact Hu |]. split; [reflexivity |]. exists v. repeat split; try done; lia.
  - apply bool_decide_eq_false in Hlim.
    split; [split; [contradiction |] | split; contradiction].
    intros (_ & _ & v' & [= <-] & _ & ?). contradiction.
Qed.

(** The sixth request of a burst, before the usual API handler. *)
Lemma middleware_refuses_exactly_over_the_limit_witness :
  (status (fst (rateLimiterMiddleware apiHandler "alice" 6 6
                  (snd (Limit_each "alice" [(1,1); (2,2); (3,3); (4,4); (5,5)]
                          NewRateLimiter))))
     = StatusTooManyRequests
   <->
   "alice" <> "" /\
   storageEnabled (snd (Limit_each "alice" [(1,1); (2,2); (3,3); (4,4); (5,5)]
                          NewRateLimiter)) = true /\
   exists v,
     visitors (snd (Limit_each "alice" [(1,1); (2,2); (3,3); (4,4); (5,5)]
                      NewRateLimiter)) !! "alice" = Some v /\
     Sub 6 (lastSeen v) <= TimeWindow /\
     int_incr (requests v) > RequestLimit) /\
  (status (fst (rateLimiterMiddleware apiHandler "alice" 6 6
                  (snd (Limit_each "alice" [(1,1); (2,2); (3,3); (4,4); (5,5)]
                          NewRateLimiter))))
     = StatusTooManyRequests ->
   fst (rateLimiterMiddleware apiHandler "alice" 6 6
          (snd (Limit_each "alice" [(1,1); (2,2); (3,3); (4,4); (5,5)]
                  NewRateLimiter)))
     = {| status := 429; header_RetryAfter := Some "60";
          body := "Rate limit exceeded" +:+ newline |}) /\
  ("alice" = "" ->
   rateLimiterMiddleware apiHandler "alice" 6 6
     (snd (Limit_each "alice" [(1,1); (2,2); (3,3); (4,4); (5,5)] NewRateLimiter))
     = ({| status := 400; header_RetryAfter := None;
           body := "X-User-ID header is required" +:+ newline |},
        snd (Limit_each "alice" [(1,1); (2,2); (3,3); (4,4); (5,5)] NewRateLimiter))).
Proof.
  apply (middleware_refuses_exactly_over_the_limit apiHandler "alice" 6 6
           (snd (Limit_each "alice" [(1,1); (2,2); (3,3); (4,4); (5,5)]
                   NewRateLimiter))).
  vm_compute. discriminate.
Defined.

(** X5. While storage is disabled the middleware lets every request that
    names a user through to the wrapped handler and records nothing: once
    storage is back, the answer to the next request of any user is what it
    would have been without the outage. *)
Theorem middleware_fails_open_and_counts_nothing
    next userID t1 t2 rl userID' t1' t2' :
  userID <> "" ->
  rateLimiterMiddleware next userID t1 t2 (SimulateStorageFailure false rl)
    = (next, SimulateStorageFailure false rl) /\
  rateLimiterMiddleware next userID' t1' t2'
    (SimulateStorageFailure true
       (snd (rateLimiterMiddleware next userID t1 t2
               (SimulateStorageFailure false rl))))
    = rateLimiterMiddleware next userID' t1' t2' (SimulateStorageFailure true rl).
Proof.
  intros Hu.
  assert (H : rateLimiterMiddleware next userID t1 t2 (SimulateStorageFailure false rl)
              = (next, SimulateStorageFailure false rl)).
  { unfold rateLimiterMiddleware.
    destruct (decide (userID = "")); [contradiction | reflexivity]. }
  split; [exact H |]. rewrite H. reflexivity.
Qed.

Lemma middleware_fails_open_and_counts_nothing_witness :
  rateLimiterMiddleware apiHandler "alice" 1 2
    (SimulateStorageFailure false NewRateLimiter)
    = (apiHandler, SimulateStorageFailure false NewRateLimiter) /\
  rateLimiterMiddleware apiHandler "bob" 3 4
    (SimulateStorageFailure true
       (snd (rateLimiterMiddleware apiHandler "alice" 1 2
               (SimulateStorageFailure false NewRateLimiter))))
    = rateLimiterMiddleware apiHandler "bob" 3 4
        (SimulateStorageFailure true NewRateLimiter).
Proof.
  apply (middleware_fails_open_and_counts_nothing apiHandler "alice" 1 2
           NewRateLimiter "bob" 3 4).
  discriminate.
Defined.

End Ep2_more.

(* ===================================================================== *)
(** * More on the dispatch lane (ep4)                                    *)
(* ===================================================================== *)

Section Ep4_more.

Variable api : nat -> UserRequest -> api_result.

Lemma ticks_turn_events req k : ticks (turn_events req k) = 1%nat.
Proof.
  unfold turn_events. rewrite !ticks_app, ticks_retry_events.
  destruct (decide _); reflexivity.
Qed.

(** The turn for [req] ends in one send, of something written for [req]. *)
Lemma dispatch_written req w :
  exists (k : nat) (v : option APIResponse) (w_pre : World),
    (k <= maxRetries)%nat /\
    dispatch api req w = chan_send (Response req) v w_pre /\
    chans w_pre = chans w /\
    trace w_pre = trace w ++ turn_events req k /\
    written api req v.
Proof.
  unfold dispatch, sendRequest.
  destruct (loop_shape api req 5 1 initial_backoff
              (ticker_wait (emit (EvDequeue req) w)) eq_refl)
    as (k & v & w_pre & Hk & Hrun & Hch & Htr & _ & _ & Hv).
  exists k, v, w_pre. repeat split; try assumption.
  - rewrite Htr. unfold turn_events. simpl. rewrite <- !app_assoc. reflexivity.
  - destruct (decide (k = 5%nat)); [left; exact Hv |]. right.
    destruct (api _ req) as [resp [e |]] eqn:Hapi.
    + right. destruct Hv as [Hne ->].
      eexists _, resp, e. split; [exact Hapi |]. split; [exact Hne | reflexivity].
    + left. subst v. eexists. exact Hapi.
Qed.

(** What a send changes: at most one buffer, by the value sent. *)
Lemma chan_send_world c v w :
  length (chans (world_of (chan_send c v w))) = length (chans w) /\
  (exists tail, trace (world_of (chan_send c v w)) = trace w ++ tail /\
                (tail = [] \/ tail = [EvSend c v])) /\
  forall c' ch' v',
    chans (world_of (chan_send c v w)) !! c' = Some ch' -> v' ∈ buf ch' ->
    (exists ch0, chans w !! c' = Some ch0 /\ v' ∈ buf ch0) \/
    (c' = c /\ v' = v /\ is_Some (chans w !! c)).
Proof.
  unfold chan_send.
  destruct (chans w !! c) as [ch |] eqn:Hc; [destruct (decide _) |]; simpl.
  - split; [apply length_insert |].
    split; [exists [EvSend c v]; auto |].
    intros c' ch' v' Hc' Hv'.
    apply list_lookup_insert_Some in Hc' as [(<- & <- & _) | (Hne & Hc')].
    + simpl in Hv'. apply elem_of_app in Hv' as [Hv' | Hv'%list_elem_of_singleton].
      * left. eauto.
      * right. eauto.
    + left. eauto.
  - split; [reflexivity |].
    split; [exists []; rewrite app_nil_r; auto |].
    intros c' ch' v' Hc' Hv'. left. eauto.
  - split; [reflexivity |].
    split; [exists []; rewrite app_nil_r; auto |].
    intros c' ch' v' Hc' Hv'. left. eauto.
Qed.

Lemma lane_inv2_init : lane_inv2 api NewRateLimiter.
Proof.
  split; simpl; done.
Qed.

Lemma lane_inv2_step a s s' :
  lane_inv s -> lane_inv2 api s -> step api a s = Some s' -> lane_inv2 api s'.
Proof.
  intros Hinv [Hch Hreq Hcap Htk Hwait Hbuf].
  destruct a as [userID | | | | h | h]; unfold_step.
  - (* a request arrives *)
    destruct (decide (userID = "")) as [Hu | Hu].
    { intros [= <-]. split; simpl; try assumption.
      intros h req [Hh | [_ Hh]]%lookup_app_Some; [eauto |].
      apply list_lookup_singleton_Some in Hh as [_ [=]]. }
    destruct (decide _) as [Hroom |]; [| discriminate].
    simpl. intros [= <-].
    set (req := {| UserID := userID; Data := "Some data";
                   Response := length (chans (world s)) |}).
    assert (Henq : enqueued (trace (world s) ++ [EvEnqueue req])
                   = enqueued (trace (world s)) ++ [req])
      by (rewrite enqueued_app; reflexivity).
    assert (Hdeq : dequeued (trace (world s) ++ [EvEnqueue req])
                   = dequeued (trace (world s)))
      by (rewrite dequeued_app; simpl; apply app_nil_r).
    split; simpl; fold req; rewrite ?Henq, ?Hdeq.
    + rewrite !length_app. simpl. lia.
    + intros i r [Hi | [Hi Hr]]%lookup_app_Some; [eauto |].
      apply list_lookup_singleton_Some in Hr as [Hi0 <-].
      simpl. repeat split; try done. lia.
    + rewrite length_app. simpl. lia.
    + rewrite ticks_app. simpl. change (ticks [EvEnqueue req]) with 0%nat. lia.
    + intros h r [Hh | [_ Hh]]%lookup_app_Some.
      * apply lookup_app_l_Some. eauto.
      * apply list_lookup_singleton_Some in Hh as [_ [= <-]].
        simpl. rewrite Hch, lookup_app_r, Nat.sub_diag by lia. reflexivity.
    + intros c ch v [Hc | [_ Hc]]%lookup_app_Some Hv.
      * destruct (Hbuf c ch v Hc Hv) as (r & Hr & Hw).
        exists r. split; [apply lookup_app_l_Some, Hr | exact Hw].
      * apply list_lookup_singleton_Some in Hc as [_ <-]. inversion Hv.
  - (* Shutdown *)
    destruct (shutdownChan s); [discriminate |].
    intros [= <-]. split; simpl; assumption.
  - (* the worker takes a request *)
    destruct (worker s); try discriminate.
    destruct (requestChan s) as [| req q] eqn:Hq; [discriminate |].
    destruct (dispatch_written req (world s))
      as (k & v & w_pre & Hk & Hrun & Hchp & Htr & Hw).
    destruct (chan_send_world (Response req) v w_pre)
      as (Hlen & (tail & Htail & Hshape) & Hbufs).
    rewrite <- Hrun in Hlen, Htail, Hbufs.
    assert (Hfinal : forall s1,
              world s1 = world_of (dispatch api req (world s)) ->
              requestChan s1 = q -> handlers s1 = handlers s ->
              lane_inv2 api s1).
    { intros s1 Hw1 Hq1 Hh1.
      assert (Henq : enqueued (trace (world s1)) = enqueued (trace (world s))).
      { rewrite Hw1, Htail, Htr, !enqueued_app, enqueued_turn_events.
        destruct Hshape as [-> | ->]; simpl; rewrite ?app_nil_r; reflexivity. }
      assert (Hdeq : dequeued (trace (world s1))
                     = dequeued (trace (world s)) ++ [req]).
      { rewrite Hw1, Htail, Htr, !dequeued_app, dequeued_turn_events.
        destruct Hshape as [-> | ->]; simpl; rewrite ?app_nil_r; reflexivity. }
      split; rewrite ?Henq, ?Hdeq, ?Hq1, ?Hh1; try assumption.
      - rewrite Hw1, Hlen, Hchp. exact Hch.
      - simpl in Hcap. lia.
      - rewrite Hw1, Htail, Htr, !ticks_app, ticks_turn_events, length_app.
        destruct Hshape as [-> | ->]; simpl; change (ticks []) with 0%nat;
          try change (ticks [EvSend (Response req) v]) with 0%nat; lia.
      - intros c ch v' Hc Hv'. rewrite Hw1 in Hc.
        destruct (Hbufs c ch v' Hc Hv') as [(ch0 & Hc0 & Hv0) | (-> & -> & _)].
        + rewrite Hchp in Hc0. eauto.
        + exists req. split; [| exact Hw].
          assert (Hin : req ∈ enqueued (trace (world s))).
          { rewrite (inv_fifo _ Hinv), Hq. apply elem_of_app. right. left. }
          apply list_elem_of_lookup_1 in Hin as [i Hi].
          destruct (Hreq i req Hi) as [<- _]. exact Hi. }
    destruct (dispatch api req (world s)) eqn:Hd; intros [= <-];
      apply Hfinal; reflexivity.
  - (* the worker takes the shutdown signal *)
    destruct (worker s); try discriminate.
    destruct (shutdownChan s); [| discriminate].
    intros [= <-]. split; simpl; assumption.
  - (* a handler reads its response *)
    destruct (handlers s !! h) as [[req | |] |] eqn:Hh; try discriminate.
    destruct (chans (world s) !! Response req) as [[n [| v rest]] |] eqn:Hc;
      try discriminate.
    intros [= <-]. split; simpl; try assumption.
    + rewrite length_insert. exact Hch.
    + intros h' r [(_ & Hr & _) | (_ & Hh')]%list_lookup_insert_Some; [| eauto].
      unfold on_response in Hr. destruct v as [r0 |]; [| discriminate].
      destruct (Err r0); [destruct (decide _) |]; discriminate.
    + intros c ch v' [(<- & <- & _) | (_ & Hc')]%list_lookup_insert_Some Hv'.
      * apply (Hbuf _ _ v' Hc). simpl. right. exact Hv'.
      * eauto.
  - (* a handler times out *)
    destruct (handlers s !! h) as [[req | |] |] eqn:Hh; try discriminate.
    intros [= <-]. split; simpl; try assumption.
    intros h' r [(_ & [=] & _) | (_ & Hh')]%list_lookup_insert_Some. eauto.
Qed.

Lemma lane_invs_run acts : forall s s',
  lane_inv s -> lane_inv2 api s -> run api acts s = Some s' ->
  lane_inv s' /\ lane_inv2 api s'.
Proof.
  induction acts as [| a acts IH]; intros s s' Hs Hs2; simpl.
  - intros [= <-]. done.
  - destruct (step api a s) as [s1 |] eqn:Hstep; [| discriminate].
    apply IH.
    + eapply lane_inv_step; eassumption.
    + eapply lane_inv2_step; eassumption.
Qed.

End Ep4_more.

Lemma elem_of_concat_replicate {A} (counts : list nat) (l : list A) x :
  x ∈ concat (zip_with replicate counts l) -> x ∈ l.
Proof.
  revert l. induction counts as [| n counts IH]; intros [| y l]; simpl;
    try (intros H; inversion H; fail).
  intros [Hx | Hx]%elem_of_app.
  - apply elem_of_replicate in Hx as [-> _]. left.
  - right. apply IH, Hx.
Qed.

Lemma length_concat_replicate {A} (m : nat) (counts : list nat) (l : list A) :
  length counts = length l ->
  Forall (fun n => 1 <= n <= m)%nat counts ->
  (length l <= length (concat (zip_with replicate counts l)) <= m * length l)%nat.
Proof.
  revert l. induction counts as [| n counts IH]; intros [| y l] Hlen Hall;
    simpl in *; try discriminate; [lia |].
  apply Forall_cons in Hall as [Hn Hall].
  specialize (IH l ltac:(lia) Hall).
  rewrite length_app, length_replicate. lia.
Qed.

(** X6. Whatever the schedule, every request the downstream is invoked
    with was submitted by a handler: it names a user, carries the payload
    "Some data" and the channel made for it -- the one of its arrival
    number -- and was taken from the queue before.  A request without
    [X-User-ID] never reaches the downstream. *)
Theorem every_invocation_names_a_user
    (api : nat -> UserRequest -> api_result) acts s r :
  run api acts NewRateLimiter = Some s ->
  r ∈ invocations (trace (world s)) ->
  UserID r <> "" /\ Data r = "Some data" /\
  r ∈ dequeued (trace (world s)) /\
  enqueued (trace (world s)) !! Response r = Some r.
Proof.
  intros Hrun Hr.
  destruct (lane_invs_run api acts _ _ lane_inv_init (lane_inv2_init api) Hrun)
    as [Hinv Hinv2].
  destruct (inv_calls _ Hinv) as (counts & _ & _ & Hcalls).
  rewrite Hcalls in Hr. apply elem_of_concat_replicate in Hr.
  assert (Hin : r ∈ enqueued (trace (world s)))
    by (rewrite (inv_fifo _ Hinv); apply elem_of_app; left; exact Hr).
  apply list_elem_of_lookup_1 in Hin as [i Hi].
  destruct (inv2_req _ _ Hinv2 i r Hi) as (<- & Hu & Hd).
  done.
Qed.

Lemma every_invocation_names_a_user_witness :
  UserID sample_request <> "" /\ Data sample_request = "Some data" /\
  sample_request ∈ dequeued (trace (world fifo_sample)) /\
  enqueued (trace (world fifo_sample)) !! Response sample_request
    = Some sample_request.
Proof.
  apply (every_invocation_names_a_user (rate_limited_first 1) fifo_schedule).
  - vm_compute. reflexivity.
  - vm_compute. left.
Defined.

(** X7. The buffer of [requestChan] never holds more than 10000 requests,
    and while it holds that many a request naming a user is not admitted:
    its handler stays in [SubmitRequest]. *)
Theorem queue_stays_within_capacity
    (api : nat -> UserRequest -> api_result) acts s :
  run api acts NewRateLimiter = Some s ->
  Z.of_nat (length (requestChan s)) <= 10000 /\
  (Z.of_nat (length (requestChan s)) = 10000 ->
   forall userID, userID <> "" -> step api (AHandle userID) s = None).
Proof.
  intros Hrun.
  destruct (lane_invs_run api acts _ _ lane_inv_init (lane_inv2_init api) Hrun)
    as [_ Hinv2].
  split; [apply (inv2_cap _ _ Hinv2) |].
  intros Hfull userID Hu. unfold_step.
  destruct (decide (userID = "")); [contradiction |].
  destruct (decide _) as [Hroom |]; [| reflexivity].
  unfold requestChan_cap in Hroom. lia.
Qed.

Lemma queue_stays_within_capacity_witness :
  Z.of_nat (length (requestChan fifo_sample)) <= 10000 /\
  (Z.of_nat (length (requestChan fifo_sample)) = 10000 ->
   forall userID, userID <> "" ->
     step (rate_limited_first 1) (AHandle userID) fifo_sample = None).
Proof.
  apply (queue_stays_within_capacity (rate_limited_first 1) fifo_schedule).
  vm_compute. reflexivity.
Defined.

(** X8. Over the downstream the repository simulates, whatever its random
    source yields and whatever the schedule: a handler that reads its
    channel finds the outcome of its own request.  It answers either 200
    with "Success: Processed data for user" followed by the user it was
    called for, or 500 with "request failed after 5 retries"; never the
    response of another caller, never 429. *)
Theorem handler_reads_the_outcome_of_its_own_request
    (F : Type) (lt_03 : F -> bool) (rnd : nat -> F) acts s h req s' :
  run (simulated lt_03 rnd) acts NewRateLimiter = Some s ->
  handlers s !! h = Some (HWaiting req) ->
  step (simulated lt_03 rnd) (ARecv h) s = Some s' ->
  handlers s' !! h
    = Some (HReplied {| status := 200;
                        body := "Success: Processed data for user " +:+ UserID req |})
  \/
  handlers s' !! h
    = Some (HReplied (http_Error "request failed after 5 retries" 500)).
Proof.
  intros Hrun Hh. unfold_step. rewrite Hh.
  destruct (lane_invs_run _ acts _ _ lane_inv_init
              (lane_inv2_init (simulated lt_03 rnd)) Hrun) as [_ Hinv2].
  destruct (chans (world s) !! Response req) as [[n [| v rest]] |] eqn:Hc;
    try discriminate.
  intros [= <-]. simpl.
  rewrite list_lookup_insert_eq by (eapply lookup_lt_Some, Hh).
  destruct (inv2_buf _ _ Hinv2 _ _ v Hc) as (r & Hr & Hw); [left |].
  rewrite (inv2_waiting _ _ Hinv2 h req Hh) in Hr. injection Hr as <-.
  destruct Hw as [-> | [[k Hk] | (k & resp & e & Hk & Hne & _)]].
  - right. reflexivity.
  - left. unfold simulated, callThirdPartyAPI_sim in Hk.
    destruct (lt_03 (rnd k)); [discriminate |].
    injection Hk as <-. reflexivity.
  - unfold simulated, callThirdPartyAPI_sim in Hk.
    destruct (lt_03 (rnd k)); [| discriminate].
    injection Hk as _ <-. contradiction.
Qed.

Lemma handler_reads_the_outcome_of_its_own_request_witness :
  handlers served_and_read_sample !! 1%nat
    = Some (HReplied {| status := 200;
                        body := "Success: Processed data for user "
                                +:+ UserID {| UserID := "bob"; Data := "Some data";
                                              Response := 1 |} |})
  \/
  handlers served_and_read_sample !! 1%nat
    = Some (HReplied (http_Error "request failed after 5 retries" 500)).
Proof.
  apply (handler_reads_the_outcome_of_its_own_request bool (fun b => b)
           (fun _ => false) served_schedule served_sample 1
           {| UserID := "bob"; Data := "Some data"; Response := 1 |}
           served_and_read_sample).
  - vm_compute. reflexivity.
  - vm_compute. reflexivity.
  - vm_compute. reflexivity.
Defined.

(** X9. In every reachable state the ticker has been waited for once per
    request taken from the queue, and the downstream has been invoked at
    least once and at most [maxRetries] = 5 times per such request: at most
    five invocations to a tick. *)
Theorem invocations_per_tick_are_bounded
    (api : nat -> UserRequest -> api_result) acts s :
  run api acts NewRateLimiter = Some s ->
  ticks (trace (world s)) = length (dequeued (trace (world s))) /\
  (ticks (trace (world s)) <= length (invocations (trace (world s)))
     <= 5 * ticks (trace (world s)))%nat.
Proof.
  intros Hrun.
  destruct (lane_invs_run api acts _ _ lane_inv_init (lane_inv2_init api) Hrun)
    as [Hinv Hinv2].
  destruct (inv_calls _ Hinv) as (counts & Hlen & Hall & Hcalls).
  rewrite (inv2_ticks _ _ Hinv2), Hcalls. split; [reflexivity |].
  apply (length_concat_replicate maxRetries); assumption.
Qed.

Lemma invocations_per_tick_are_bounded_witness :
  ticks (trace (world fifo_sample))
    = length (dequeued (trace (world fifo_sample))) /\
  (ticks (trace (world fifo_sample))
     <= length (invocations (trace (world fifo_sample)))
     <= 5 * ticks (trace (world fifo_sample)))%nat.
Proof.
  apply (invocations_per_tick_are_bounded (rate_limited_first 1) fifo_schedule).
  vm_compute. reflexivity.
Defined.

(** X10. A request rate-limited at its first [k] attempts, [k] below
    [maxRetries], and answered without error at the next, is invoked
    exactly [k + 1] times: [k] calls each followed by its backoff sleep,
    then the call that succeeds, whose response is delivered as it is;
    [sendRequest] returns. *)
Theorem retried_request_succeeds
    (api : nat -> UserRequest -> api_result) req w ch (k : nat) resp :
  (k < maxRetries)%nat ->
  (forall i, (i < k)%nat ->
     snd (api (calls w + i)%nat req) = Some ErrRateLimited) ->
  api (calls w + k)%nat req = (resp, None) ->
  chans w !! Response req = Some ch ->
  (length (buf ch) < cap ch)%nat ->
  exists w',
    sendRequest api req w = Returned w' /\
    trace w' = trace w ++ retry_events req initial_backoff 1 k
                 ++ [EvCall req; EvSend (Response req) resp] /\
    calls w' = (calls w + k + 1)%nat /\
    length (invocations (retry_events req initial_backoff 1 k ++ [EvCall req]))
      = S k /\
    sleeps (retry_events req initial_backoff 1 k) = backoff_at <$> seq 1 k.
Proof.
  intros Hk Hrl Hok Hc Hroom. unfold sendRequest.
  destruct (loop_shape api req 5 1 initial_backoff w eq_refl)
    as (k' & v & w_pre & Hk' & Hrun & Hch & Htr & Hcalls & Hrl' & Hv).
  assert (k' = k) as ->.
  { destruct (Nat.lt_trichotomy k' k) as [Hlt | [Heq | Hgt]]; [| exact Heq |].
    - exfalso. destruct (decide (k' = 5%nat)); [unfold maxRetries in Hk; lia |].
      specialize (Hrl k' Hlt).
      destruct (api (calls w + k')%nat req) as [resp' [e |]]; simpl in Hrl.
      + destruct Hv as [Hne _]. congruence.
      + discriminate.
    - exfalso. specialize (Hrl' k Hgt). rewrite Hok in Hrl'. discriminate. }
  destruct (decide (k = 5%nat)); [unfold maxRetries in Hk; lia |].
  rewrite Hok in Hv. subst v.
  rewrite Hrun, (chan_send_ready _ _ _ ch) by (rewrite ?Hch; assumption).
  eexists. split; [reflexivity |]. cbn [trace calls].
  rewrite Htr, Hcalls, <- !app_assoc.
  split; [reflexivity |]. split; [reflexivity |]. split.
  - rewrite invocations_app, invocations_retry_events, length_app, length_replicate.
    simpl. lia.
  - change initial_backoff with (backoff_at 1).
    apply sleeps_retry_events. lia.
Qed.

(** Rate-limited twice, then served: three invocations. *)
Lemma retried_request_succeeds_witness :
  exists w',
    sendRequest (rate_limited_first 2) sample_request sample_world = Returned w' /\
    trace w' = trace sample_world
                 ++ retry_events sample_request initial_backoff 1 2
                 ++ [EvCall sample_request;
                     EvSend (Response sample_request)
                       (Some {| RespData := processed_msg sample_request;
                                Err := None |})] /\
    calls w' = (calls sample_world + 2 + 1)%nat /\
    length (invocations (retry_events sample_request initial_backoff 1 2
                           ++ [EvCall sample_request]))
      = 3%nat /\
    sleeps (retry_events sample_request initial_backoff 1 2)
      = backoff_at <$> seq 1 2.
Proof.
  apply (retried_request_succeeds (rate_limited_first 2) sample_request
           sample_world (make_chan 1) 2
           (Some {| RespData := processed_msg sample_request; Err := None |})).
  - unfold maxRetries. lia.
  - intros [| [| i]] Hi; [reflexivity | reflexivity | lia].
  - reflexivity.
  - reflexivity.
  - simpl. lia.
Defined.

(** X11. Whatever the downstream answers, the worker sleeps at most
    549.5 seconds in all over one request (0.5 + 1 + 4 + 32 + 512), each
    sleep between the base delay and 512 seconds. *)
Theorem sleep_per_request_is_bounded
    (api : nat -> UserRequest -> api_result) req w :
  exists evs,
    trace (world_of (sendRequest api req w)) = trace w ++ evs /\
    foldr Z.add 0 (sleeps evs) <= 549500 * Millisecond /\
    forall d, d ∈ sleeps evs -> initial_backoff <= d <= 512 * Second.
Proof.
  destruct (sendRequest_sleeps api req w) as (k & evs & Hk & Htr & Hsl).
  exists evs. split; [exact Htr |]. rewrite Hsl. unfold maxRetries in Hk.
  assert (k = 0 \/ k = 1 \/ k = 2 \/ k = 3 \/ k = 4 \/ k = 5)%nat
    as [-> | [-> | [-> | [-> | [-> | ->]]]]] by lia;
    (split; [apply Z.leb_le; vm_compute; reflexivity |]);
    intros d Hd; vm_compute in Hd;
    repeat (apply elem_of_cons in Hd as [-> | Hd]);
    try (inversion Hd; fail);
    split; apply Z.leb_le; vm_compute; reflexivity.
Qed.

(** X12. Once the worker has halted with the queue full, no request naming
    a user is admitted again, whatever happens next: nothing takes from
    the queue any more, so the handler of such a request stays in
    [SubmitRequest], before the [select] that holds its timeout. *)
Theorem submissions_block_for_good_once_halted_and_full
    (api : nat -> UserRequest -> api_result) s acts s' userID :
  worker s = Halted ->
  requestChan_cap <= Z.of_nat (length (requestChan s)) ->
  run api acts s = Some s' ->
  userID <> "" ->
  step api (AHandle userID) s' = None /\
  worker s' = Halted /\
  requestChan s `prefix_of` requestChan s'.
Proof.
  intros Hw Hfull Hrun Hu.
  destruct (halted_stays_halted api acts s s' Hw Hrun) as (Hw' & _ & _ & Hpre).
  split; [| split; assumption].
  apply prefix_length in Hpre. unfold_step.
  destruct (decide (userID = "")); [contradiction |].
  destruct (decide _) as [Hroom |]; [| reflexivity]. lia.
Qed.

(** The queue full and the worker halted; a request without user is still
    answered, one naming a user is not admitted. *)
Lemma submissions_block_for_good_once_halted_and_full_witness :
  step always_ok (AHandle "bob")
    (state_of_option (run always_ok [AHandle ""] halted_full_sample)
       halted_full_sample) = None /\
  worker (state_of_option (run always_ok [AHandle ""] halted_full_sample)
            halted_full_sample) = Halted /\
  requestChan halted_full_sample `prefix_of`
    requestChan (state_of_option (run always_ok [AHandle ""] halted_full_sample)
                   halted_full_sample).
Proof.
  apply (submissions_block_for_good_once_halted_and_full always_ok
           halted_full_sample [AHandle ""]).
  - reflexivity.
  - vm_compute. discriminate.
  - reflexivity.
  - discriminate.
Defined.
